(** * The asynchronous image loader of cineMaticAnalyser.py

    A shallow embedding of [ThemeManager.get]/[toggle] and of
    [ImageCacheLoader] ([request], [_fetch_image], [_worker]) together with
    the parts of Python, Pillow, queue.Queue and Tk these functions rely on.

    Python strings are taken as ASCII strings.  Exceptions are values of
    [exn]; every constructor stands for a subclass of Python's [Exception],
    which is what the [except Exception] clauses of the source catch. *)

From Stdlib Require Import ZArith String Ascii List Bool Lia.
From Stdlib Require Import QArith Qround OrdersEx Sorted.
From stdpp Require Import base option list strings gmap.

Local Open Scope string_scope.
Local Open Scope Z_scope.

(** ** Python results *)

Module Py.

Inductive exn : Type :=
  | Empty               (* queue.Empty *)
  | ValueError
  | KeyError
  | ZeroDivisionError
  | OSError             (* also PIL.UnidentifiedImageError *)
  | ImportError
  | RequestException    (* requests.exceptions.RequestException *)
  | AttributeError
  | NameError
  | TclError
  | OverflowError
  | MemoryError.

Inductive res (A : Type) : Type :=
  | Ret (a : A)
  | Raise (e : exn).
Arguments Ret {A} a.
Arguments Raise {A} e.

Definition res_bind {A B} (f : A → res B) (m : res A) : res B :=
  match m with
  | Ret a => f a
  | Raise e => Raise e
  end.

#[export] Instance res_mret : MRet res := @Ret.
#[export] Instance res_mbind : MBind res := @res_bind.

(** [try: m  except Exception: h] for a computation without state. *)
Definition try_except {A} (m : res A) (h : res A) : res A :=
  match m with
  | Ret a => Ret a
  | Raise _ => h
  end.

(** Truthiness of a string: [url and ...]. *)
Definition truthy (s : string) : bool :=
  match s with EmptyString => false | String _ _ => true end.

(** [s.startswith(p)] *)
Definition startswith (s p : string) : bool := String.prefix p s.

(** The slice [s[i:i+2]]; like Python's, it is clamped to the string. *)
Definition slice2 (s : string) (i : nat) : string := String.substring i 2 s.

(** *** [int(s, 16)]

    CPython's [PyLong_FromString] for base 16 on an ASCII string: leading
    whitespace, one optional sign, an optional [0x]/[0X] prefix (after
    which one underscore may stand), then digits with single underscores
    between them, trailing whitespace, end of string. *)

Definition Py_ISSPACE (c : ascii) : bool :=
  let n := Z.of_nat (nat_of_ascii c) in
  (n =? 32) || ((9 <=? n) && (n <=? 13)).

Definition digit_value (c : ascii) : option Z :=
  let n := Z.of_nat (nat_of_ascii c) in
  if (48 <=? n) && (n <=? 57) then Some (n - 48)
  else if (97 <=? n) && (n <=? 102) then Some (n - 87)
  else if (65 <=? n) && (n <=? 70) then Some (n - 55)
  else None.

Fixpoint skip_space (s : string) : string :=
  match s with
  | String c s' => if Py_ISSPACE c then skip_space s' else s
  | EmptyString => s
  end.

Definition is_char (c : ascii) (d : string) : bool :=
  match d with
  | String d0 EmptyString => Ascii.eqb c d0
  | _ => false
  end.

Definition skip_prefix16 (s : string) : string :=
  match s with
  | String c0 (String c1 s') =>
      if is_char c0 "0" && (is_char c1 "x" || is_char c1 "X") then
        match s' with
        | String u s'' => if is_char u "_" then s'' else s'
        | EmptyString => s'
        end
      else s
  | _ => s
  end.

(** The digit loop: value so far, number of digits read, whether the
    previous character was an underscore. *)
Fixpoint scan_digits (s : string) (acc : Z) (ndigits : nat) (prev_us : bool)
  : option (Z * nat * string) :=
  match s with
  | String c s' =>
      if is_char c "_" then
        if prev_us then None else scan_digits s' acc ndigits true
      else
        match digit_value c with
        | Some d => scan_digits s' (16 * acc + d) (S ndigits) false
        | None => if prev_us then None else Some (acc, ndigits, s)
        end
  | EmptyString => if prev_us then None else Some (acc, ndigits, s)
  end.

Definition int16 (s : string) : res Z :=
  let s1 := skip_space s in
  let '(sign, s2) :=
    match s1 with
    | String c s' =>
        if is_char c "+" then (1, s')
        else if is_char c "-" then (-1, s')
        else (1, s1)
    | EmptyString => (1, s1)
    end in
  let s3 := skip_prefix16 s2 in
  match s3 with
  | String c _ =>
      if is_char c "_" then Raise ValueError
      else
        match scan_digits s3 0 0%nat false with
        | Some (v, S _, rest) =>
            match skip_space rest with
            | EmptyString => Ret (sign * v)
            | String _ _ => Raise ValueError
            end
        | _ => Raise ValueError
        end
  | EmptyString => Raise ValueError
  end.

End Py.
Import Py.


(** ** ThemeManager *)

Record ThemeManager : Type := {
  current_theme : string;
  themes : gmap string (gmap string string)
}.

Definition dark_palette : gmap string string :=
  list_to_map
    [("bg", "#121212"); ("panel", "#1E1E1E"); ("text", "#FFFFFF");
     ("muted", "#B3B3B3"); ("accent", "#E50914"); ("accent_hover", "#ff1a24");
     ("card", "#181818"); ("border", "#2A2A2A"); ("input", "#2A2A2A")].

Definition light_palette : gmap string string :=
  list_to_map
    [("bg", "#F5F5F5"); ("panel", "#FFFFFF"); ("text", "#111111");
     ("muted", "#333333"); ("accent", "#1F51FF"); ("accent_hover", "#3b66ff");
     ("card", "#FFFFFF"); ("border", "#E0E0E0"); ("input", "#FFFFFF")].

(** [ThemeManager.__init__] (the Tk styling of [_apply_styles] is left out). *)
Definition ThemeManager_init : ThemeManager :=
  {| current_theme := "dark";
     themes := list_to_map [("dark", dark_palette); ("light", light_palette)] |}.

(** [ThemeManager.get]: [self.themes[self.current_theme][key]]. *)
Definition ThemeManager_get (self : ThemeManager) (key : string) : res string :=
  match themes self !! current_theme self with
  | Some palette =>
      match palette !! key with
      | Some v => Ret v
      | None => Raise KeyError
      end
  | None => Raise KeyError
  end.

(** [ThemeManager.toggle] *)
Definition ThemeManager_toggle (self : ThemeManager) : ThemeManager :=
  {| current_theme :=
       if String.eqb (current_theme self) "dark" then "light" else "dark";
     themes := themes self |}.

(** ** Pillow *)

Module PIL.

Inductive mode : Type := RGB | RGBA | L | P | CMYK.

Record pixel : Type := Px { pR : Z; pG : Z; pB : Z; pA : Z }.

(** An image: its mode, its size (width, height) and its pixel data.
    [Image.open] only reads the header; the pixel data are decoded when
    first needed, and decoding may fail then: [im_load] is the outcome. *)
Record Image : Type := {
  im_mode : mode;
  im_size : Z * Z;
  im_load : res (Z → Z → pixel)
}.

Definition width (im : Image) : Z := fst (im_size im).
Definition height (im : Image) : Z := snd (im_size im).

(** [im.convert("RGB")]: same size, every pixel opaque. *)
Definition convert_RGB (im : Image) : res Image :=
  px ← im_load im;
  Ret {| im_mode := RGB;
         im_size := im_size im;
         im_load := Ret (λ x y, let p := px x y in Px (pR p) (pG p) (pB p) 255) |}.

Definition CLIP8 (v : Z) : Z := Z.max 0 (Z.min 255 v).

(** The largest C [int]. *)
Definition INT_MAX : Z := 2147483647.

(** [Image.new("RGB", size, (r, g, b))].  [Image.new] itself refuses a
    negative side.  The core takes the two sides as C [int]s, so a side
    above [INT_MAX] is an [OverflowError], and it refuses a width whose
    line of four-byte pixels would pass [INT_MAX].  Past these checks the
    core has to find the memory for the canvas; it is taken to be there. *)
Definition new_RGB (size : Z * Z) (color : Z * Z * Z) : res Image :=
  let '(r, g, b) := color in
  if (fst size <? 0) || (snd size <? 0) then Raise ValueError
  else if (INT_MAX <? fst size) || (INT_MAX <? snd size) then Raise OverflowError
  else if INT_MAX / 4 - 1 <? fst size then Raise MemoryError
  else Ret {| im_mode := RGB;
              im_size := size;
              im_load := Ret (λ _ _, Px (CLIP8 r) (CLIP8 g) (CLIP8 b) 255) |}.

(** [base.paste(im, (x0, y0))]: the box is the size of [im]. *)
Definition paste (base im : Image) (pos : Z * Z) : Image :=
  let '(x0, y0) := pos in
  {| im_mode := im_mode base;
     im_size := im_size base;
     im_load :=
       b ← im_load base;
       s ← im_load im;
       Ret (λ x y,
              if (x0 <=? x) && (x <? x0 + width im) &&
                 (y0 <=? y) && (y <? y0 + height im)
              then s (x - x0) (y - y0)
              else b x y) |}.

(** [base.putalpha(mask)] where [mask] has the size of [base]. *)
Definition putalpha (base : Image) (mask : Z → Z → Z) : Image :=
  {| im_mode := RGBA;
     im_size := im_size base;
     im_load :=
       b ← im_load base;
       Ret (λ x y, let p := b x y in Px (pR p) (pG p) (pB p) (mask x y)) |}.

End PIL.
Import PIL.

(** ** The scale-to-fit step *)

Module ImageOps.

(** Modelled from the spec: Python's [round] of the quotient [n / d]
    ([d] not zero), as [contain] (below, not part of the sources) uses it:
    to the nearest integer, a tie to the even one. *)
Definition py_round (n d : Z) : Z :=
  let '(n, d) := if d <? 0 then (- n, - d) else (n, d) in
  let q := n / d in
  let r := n mod d in
  if 2 * r <? d then q
  else if d <? 2 * r then q + 1
  else if Z.even q then q else q + 1.

(** Modelled from the spec: the comparison of the two ratios in [contain],
    the sign of [a / b - c / d] for non-zero [b] and [d]. *)
Definition ratio_compare (a b c d : Z) : comparison :=
  ((a * d - c * b) * Z.sgn (b * d)) ?= 0.

(** Modelled from the spec: the scale-to-fit step is the call
    [ImageOps.contain(img.convert("RGB"), target_size)]; [contain] is
    Pillow's and its code is not part of the sources.  The spec (4.5,
    step 2) asks for a scale-to-fit that preserves the aspect ratio within
    the target.  The size below is the one Pillow's [contain] computes:
    it compares [im_ratio = width / height] with
    [dest_ratio = size[0] / size[1]], keeps the target width and takes
    [round(height / width * size[0])] as height when the image is
    relatively wider, and the other way round when it is relatively
    taller.  Quotients are taken exactly. *)
Definition contain_size (im_size size : Z * Z) : res (Z * Z) :=
  let '(w, h) := im_size in
  let '(W, H) := size in
  if h =? 0 then Raise ZeroDivisionError
  else if H =? 0 then Raise ZeroDivisionError
  else
    match ratio_compare w h W H with
    | Eq => Ret (W, H)
    | Gt =>
        if w =? 0 then Raise ZeroDivisionError
        else Ret (W, py_round (h * W) w)
    | Lt => Ret (py_round (w * H) h, H)
    end.

(** Modelled from the spec: [im.resize(size)] of Pillow, which [contain]
    ends with: a copy when the size is the image's own, an error when a
    side is smaller than 1, else the resampled image.  The resampling
    filter (bicubic) is the parameter [resample]. *)
Definition resize
    (resample : (Z → Z → pixel) → Z * Z → Z * Z → Z → Z → pixel)
    (im : Image) (size : Z * Z) : res Image :=
  px ← im_load im;
  if (fst size =? width im) && (snd size =? height im) then Ret im
  else if (fst size <? 1) || (snd size <? 1) then Raise ValueError
  else Ret {| im_mode := im_mode im;
              im_size := size;
              im_load := Ret (resample px (im_size im) size) |}.

(** Modelled from the spec: [ImageOps.contain(image, size)], see
    [contain_size] and [resize]. *)
Definition contain
    (resample : (Z → Z → pixel) → Z * Z → Z * Z → Z → Z → pixel)
    (image : Image) (size : Z * Z) : res Image :=
  size' ← contain_size (im_size image) size;
  resize resample image size'.

End ImageOps.

(** ** The world outside the process *)

Record Response : Type := { status_code : Z; content : string }.

(** What the network, the file system and the drawing primitives answer.
    [requests_get] also stands for the [import requests] before it. *)
Record Env : Type := {
  workspace_dir : string;        (* os.path.dirname(os.path.abspath(sys.argv[0])) *)
  os_path_join : string → string → string;
  requests_get : string → res Response;          (* requests.get(url, timeout=6) *)
  Image_open_bytes : string → res Image;         (* Image.open(BytesIO(content)) *)
  os_path_exists : string → bool;
  Image_open : string → res Image;               (* Image.open(path) *)
  resample : (Z → Z → pixel) → Z * Z → Z * Z → Z → Z → pixel;
  rounded_rectangle : Z * Z → Z → res (Z → Z → Z)
    (* the mask after Image.new("L", size, 0) and
       md.rounded_rectangle((0, 0, w, h), radius, fill=255) *)
}.

(** ** Tk and the loader's state *)

Inductive thread : Type := UI | Worker.

(** A widget handle. *)
Definition label : Type := nat.

(** A [PhotoImage]: Tk names every image it creates ([pyimage1],
    [pyimage2], ...), which gives each surface its identity. *)
Record Photo : Type := { ph_name : nat; ph_image : Image }.

Definition ph_size (p : Photo) : Z * Z := im_size (ph_image p).

(** An entry of the request queue:
    [(url, "GET", width, height, target_label)]. *)
Record Request : Type := {
  rq_url : string;
  rq_method : string;
  rq_width : Z;
  rq_height : Z;
  rq_target_label : label
}.

(** The callbacks handed to [after]: the closures [assign] made by
    [_worker].  [assign] has no parameters; its free variables
    [target_label] and [photo] are local variables of the one running
    [_worker] call, so every closure reads the value these variables have
    when it is called. *)
Inductive callback : Type := assign.

(** A write to a widget and the thread that performed it. *)
Inductive write : Type :=
  | W_configure (t : thread) (l : label) (p : Photo)   (* l.configure(image=p) *)
  | W_attr (t : thread) (l : label) (p : Photo).       (* l.image = p *)

Definition write_thread (w : write) : thread :=
  match w with W_configure t _ _ | W_attr t _ _ => t end.

Record State : Type := {
  (* ImageCacheLoader *)
  cache : gmap string Photo;
  queue : list Request;                 (* self.queue, oldest first *)
  unfinished_tasks : Z;                 (* self.queue.unfinished_tasks *)
  fallback_paths : list string;
  theme : ThemeManager;
  (* local variables of _worker that assign refers to *)
  var_target_label : option label;
  var_photo : option Photo;
  (* Tk *)
  widgets : gmap label (option Photo);  (* the live labels and their image option *)
  attr_image : gmap label Photo;        (* the attribute .image of the label objects *)
  after_queue : list callback;          (* callbacks waiting in the event loop *)
  last_id : nat;                        (* tkinter.Image._last_id *)
  writes : list write
}.

Definition set_cache (v : gmap string Photo) (s : State) : State :=
  {| cache := v; queue := queue s; unfinished_tasks := unfinished_tasks s;
     fallback_paths := fallback_paths s; theme := theme s;
     var_target_label := var_target_label s; var_photo := var_photo s;
     widgets := widgets s; attr_image := attr_image s;
     after_queue := after_queue s; last_id := last_id s; writes := writes s |}.

Definition set_queue (v : list Request) (s : State) : State :=
  {| cache := cache s; queue := v; unfinished_tasks := unfinished_tasks s;
     fallback_paths := fallback_paths s; theme := theme s;
     var_target_label := var_target_label s; var_photo := var_photo s;
     widgets := widgets s; attr_image := attr_image s;
     after_queue := after_queue s; last_id := last_id s; writes := writes s |}.

Definition set_unfinished_tasks (v : Z) (s : State) : State :=
  {| cache := cache s; queue := queue s; unfinished_tasks := v;
     fallback_paths := fallback_paths s; theme := theme s;
     var_target_label := var_target_label s; var_photo := var_photo s;
     widgets := widgets s; attr_image := attr_image s;
     after_queue := after_queue s; last_id := last_id s; writes := writes s |}.

Definition set_theme (v : ThemeManager) (s : State) : State :=
  {| cache := cache s; queue := queue s; unfinished_tasks := unfinished_tasks s;
     fallback_paths := fallback_paths s; theme := v;
     var_target_label := var_target_label s; var_photo := var_photo s;
     widgets := widgets s; attr_image := attr_image s;
     after_queue := after_queue s; last_id := last_id s; writes := writes s |}.

Definition set_var_target_label (v : option label) (s : State) : State :=
  {| cache := cache s; queue := queue s; unfinished_tasks := unfinished_tasks s;
     fallback_paths := fallback_paths s; theme := theme s;
     var_target_label := v; var_photo := var_photo s;
     widgets := widgets s; attr_image := attr_image s;
     after_queue := after_queue s; last_id := last_id s; writes := writes s |}.

Definition set_var_photo (v : option Photo) (s : State) : State :=
  {| cache := cache s; queue := queue s; unfinished_tasks := unfinished_tasks s;
     fallback_paths := fallback_paths s; theme := theme s;
     var_target_label := var_target_label s; var_photo := v;
     widgets := widgets s; attr_image := attr_image s;
     after_queue := after_queue s; last_id := last_id s; writes := writes s |}.

Definition set_widgets (v : gmap label (option Photo)) (s : State) : State :=
  {| cache := cache s; queue := queue s; unfinished_tasks := unfinished_tasks s;
     fallback_paths := fallback_paths s; theme := theme s;
     var_target_label := var_target_label s; var_photo := var_photo s;
     widgets := v; attr_image := attr_image s;
     after_queue := after_queue s; last_id := last_id s; writes := writes s |}.

Definition set_attr_image (v : gmap label Photo) (s : State) : State :=
  {| cache := cache s; queue := queue s; unfinished_tasks := unfinished_tasks s;
     fallback_paths := fallback_paths s; theme := theme s;
     var_target_label := var_target_label s; var_photo := var_photo s;
     widgets := widgets s; attr_image := v;
     after_queue := after_queue s; last_id := last_id s; writes := writes s |}.

Definition set_after_queue (v : list callback) (s : State) : State :=
  {| cache := cache s; queue := queue s; unfinished_tasks := unfinished_tasks s;
     fallback_paths := fallback_paths s; theme := theme s;
     var_target_label := var_target_label s; var_photo := var_photo s;
     widgets := widgets s; attr_image := attr_image s;
     after_queue := v; last_id := last_id s; writes := writes s |}.

Definition set_last_id (v : nat) (s : State) : State :=
  {| cache := cache s; queue := queue s; unfinished_tasks := unfinished_tasks s;
     fallback_paths := fallback_paths s; theme := theme s;
     var_target_label := var_target_label s; var_photo := var_photo s;
     widgets := widgets s; attr_image := attr_image s;
     after_queue := after_queue s; last_id := v; writes := writes s |}.

Definition set_writes (v : list write) (s : State) : State :=
  {| cache := cache s; queue := queue s; unfinished_tasks := unfinished_tasks s;
     fallback_paths := fallback_paths s; theme := theme s;
     var_target_label := var_target_label s; var_photo := var_photo s;
     widgets := widgets s; attr_image := attr_image s;
     after_queue := after_queue s; last_id := last_id s; writes := v |}.

(** ** Statements: state and exceptions

    A statement takes the state to an outcome and the state it leaves; what
    it changed before raising stays changed. *)

Definition M (A : Type) : Type := State → res A * State.

Definition M_ret {A} (a : A) : M A := λ s, (Ret a, s).

Definition M_bind {A B} (f : A → M B) (m : M A) : M B :=
  λ s, match m s with
       | (Ret a, s') => f a s'
       | (Raise e, s') => (Raise e, s')
       end.

#[export] Instance M_mret : MRet M := @M_ret.
#[export] Instance M_mbind : MBind M := @M_bind.

Definition lift {A} (r : res A) : M A := λ s, (r, s).
Definition get_state : M State := λ s, (Ret s, s).
Definition modify (f : State → State) : M unit := λ s, (Ret tt, f s).

(** [try: m  except Exception: h] *)
Definition try_exceptM {A} (m : M A) (h : M A) : M A :=
  λ s, match m s with
       | (Ret a, s') => (Ret a, s')
       | (Raise _, s') => h s'
       end.

(** [try: m  finally: fin] *)
Definition try_finally {A} (m : M A) (fin : M unit) : M A :=
  λ s, let '(r, s') := m s in
       match fin s' with
       | (Ret _, s'') => (r, s'')
       | (Raise e, s'') => (Raise e, s'')
       end.

(** The state a statement leaves. *)
Definition exec {A} (m : M A) (s : State) : State := snd (m s).

(** *** queue.Queue *)

Definition Queue_put (item : Request) : M unit :=
  modify (λ s, set_unfinished_tasks (unfinished_tasks s + 1)
                 (set_queue (queue s ++ [item]) s)).

(** [get(timeout=1)]: the oldest item, or [Empty] when none arrived. *)
Definition Queue_get : M Request :=
  λ s, match queue s with
       | [] => (Raise Empty, s)
       | item :: q => (Ret item, set_queue q s)
       end.

Definition Queue_task_done : M unit :=
  λ s, let unfinished := unfinished_tasks s - 1 in
       if unfinished <? 0 then (Raise ValueError, s)
       else (Ret tt, set_unfinished_tasks unfinished s).

(** *** Tk *)

(** [l.configure(image=p)] called by thread [t]; a destroyed widget makes
    Tk raise.  The call is recorded in [writes] either way. *)
Definition Label_configure (t : thread) (l : label) (p : Photo) : M unit :=
  λ s, let s1 := set_writes (writes s ++ [W_configure t l p]) s in
       match widgets s !! l with
       | None => (Raise TclError, s1)
       | Some _ => (Ret tt, set_widgets (<[l := Some p]> (widgets s)) s1)
       end.

(** [l.image = p] executed by thread [t]. *)
Definition Label_set_image (t : thread) (l : label) (p : Photo) : M unit :=
  modify (λ s, set_attr_image (<[l := p]> (attr_image s))
                 (set_writes (writes s ++ [W_attr t l p]) s)).

(** [widget.after(0, cb)]: the callback joins the event loop's queue. *)
Definition Misc_after (cb : callback) : M unit :=
  modify (λ s, set_after_queue (after_queue s ++ [cb]) s).

(** [ImageTk.PhotoImage(im)] *)
Definition PhotoImage (im : Image) : M Photo :=
  λ s, let n := S (last_id s) in
       (Ret {| ph_name := n; ph_image := im |}, set_last_id n s).

(** ** ImageCacheLoader *)

Section Loader.

Variable E : Env.

(** [_workspace_dir] *)
Definition _workspace_dir : string := workspace_dir E.

(** [__init__]: an empty cache and queue, the two fallback paths; the
    worker thread is started and Tk has no widget and no image yet. *)
Definition ImageCacheLoader_init (th : ThemeManager) : State :=
  {| cache := ∅;
     queue := [];
     unfinished_tasks := 0;
     fallback_paths :=
       [os_path_join E _workspace_dir "INF.png";
        os_path_join E _workspace_dir "404.webp"];
     theme := th;
     var_target_label := None;
     var_photo := None;
     widgets := ∅;
     attr_image := ∅;
     after_queue := [];
     last_id := 0;
     writes := [] |}.

(** [self.cache[url]] *)
Definition cache_getitem (url : string) : M Photo :=
  λ s, match cache s !! url with
       | Some p => (Ret p, s)
       | None => (Raise KeyError, s)
       end.

(** [self.cache[url] = photo] *)
Definition cache_setitem (url : string) (photo : Photo) : M unit :=
  modify (λ s, set_cache (<[url := photo]> (cache s)) s).

(** [request], called by thread [t]. *)
Definition request (t : thread) (url : string) (target_label : label)
    (width height : Z) : M unit :=
  s ← get_state;
  if bool_decide (is_Some (cache s !! url)) then
    p ← cache_getitem url;
    Label_configure t target_label p;;
    p' ← cache_getitem url;
    Label_set_image t target_label p'
  else
    Queue_put {| rq_url := url; rq_method := "GET"; rq_width := width;
                 rq_height := height; rq_target_label := target_label |}.

(** The three [try] bodies of [_fetch_image].  [Ret (Some img)] is a
    [return img]; [Ret None] is a body that ends without returning. *)
Definition fetch_network (url : string) : res (option Image) :=
  if truthy url && startswith url "http" then
    resp ← requests_get E url;
    if status_code resp =? 200 then
      img ← Image_open_bytes E (content resp);
      Ret (Some img)
    else Ret None
  else Ret None.

Definition fetch_local (url : string) : res (option Image) :=
  if truthy url && os_path_exists E url then
    img ← Image_open E url;
    Ret (Some img)
  else Ret None.

Definition fetch_fallback (fp : string) : res (option Image) :=
  if os_path_exists E fp then
    img ← Image_open E fp;
    Ret (Some img)
  else Ret None.

(** [for fp in self.fallback_paths: try: ... except Exception: continue],
    then [return None]. *)
Fixpoint walk_fallbacks (fps : list string) : res (option Image) :=
  match fps with
  | [] => Ret None
  | fp :: rest =>
      match fetch_fallback fp with
      | Ret (Some img) => Ret (Some img)
      | Ret None | Raise _ => walk_fallbacks rest
      end
  end.

(** [_fetch_image] *)
Definition _fetch_image (self : State) (url : string) : res (option Image) :=
  r1 ← try_except (fetch_network url) (Ret None);
  match r1 with
  | Some img => Ret (Some img)
  | None =>
      r2 ← try_except (fetch_local url) (Ret None);
      match r2 with
      | Some img => Ret (Some img)
      | None => walk_fallbacks (fallback_paths self)
      end
  end.

(** [bg_rgb]: the three slices of [bg_hex] read in base 16 when it starts
    with [#], else (24, 24, 24). *)
Definition bg_rgb_of (bg_hex : string) : res (Z * Z * Z) :=
  if startswith bg_hex "#" then
    r ← int16 (slice2 bg_hex 1);
    g ← int16 (slice2 bg_hex 3);
    b ← int16 (slice2 bg_hex 5);
    Ret (r, g, b)
  else Ret (24, 24, 24).

(** Where the scaled image is pasted. *)
Definition paste_pos_of (target_size resized_size : Z * Z) : Z * Z :=
  ((fst target_size - fst resized_size) / 2,
   (snd target_size - snd resized_size) / 2).

(** The optional rounded mask: [try: ... putalpha(mask) except: pass]. *)
Definition round_corners (background : Image) (target_size : Z * Z) : Image :=
  let radius := 12 in
  match rounded_rectangle E target_size radius with
  | Ret mask => putalpha background mask
  | Raise _ => background
  end.

(** From [img] to the image handed to [PhotoImage]: lines 341 to 357. *)
Definition compose (th : ThemeManager) (img : Image) (width height : Z)
  : res Image :=
  let target_size := (width, height) in
  rgb ← convert_RGB img;
  resized ← ImageOps.contain (resample E) rgb target_size;
  bg_hex ← ThemeManager_get th "card";
  bg_rgb ← bg_rgb_of bg_hex;
  background ← new_RGB target_size bg_rgb;
  let paste_pos := paste_pos_of target_size (im_size resized) in
  let background := paste background resized paste_pos in
  Ret (round_corners background target_size).

(** The closure [assign], run by thread [t]: it reads [target_label] and
    [photo] from the frame of [_worker] at the time it runs. *)
Definition run_assign (t : thread) : M unit :=
  try_exceptM
    (s ← get_state;
     match var_target_label s, var_photo s with
     | Some target_label, Some photo =>
         Label_configure t target_label photo;;
         Label_set_image t target_label photo
     | _, _ => lift (Raise NameError)
     end)
    (mret tt).

(** The [try] body of the worker loop. *)
Definition _worker_body : M unit :=
  item ← Queue_get;
  modify (set_var_target_label (Some (rq_target_label item)));;
  s ← get_state;
  img ← lift (_fetch_image s (rq_url item));
  match img with
  | None => Queue_task_done          (* then continue *)
  | Some img =>
      background ← lift (compose (theme s) img (rq_width item) (rq_height item));
      photo ← PhotoImage background;
      modify (set_var_photo (Some photo));;
      cache_setitem (rq_url item) photo;;
      Misc_after assign
  end.

(** One turn of [while True] in [_worker]: the body, the two handlers
    ([except queue.Empty: continue], [except Exception: pass]) and the
    [finally] clause. *)
Definition _worker_iteration : M unit :=
  try_finally
    (try_exceptM _worker_body (mret tt))
    (try_exceptM Queue_task_done (mret tt)).

(** The event loop runs the oldest waiting callback, on the UI thread. *)
Definition mainloop_after : M unit :=
  λ s, match after_queue s with
       | [] => (Ret tt, s)
       | assign :: rest => run_assign UI (set_after_queue rest s)
       end.

(** What the threads of the program do, one step at a time: a call of
    [request], a callback of the event loop and a turn of the worker loop
    are each taken whole, and a run interleaves them in any order. *)
Inductive action : Type :=
  | UI_request (url : string) (target_label : label) (width height : Z)
  | UI_create_label (l : label)
  | UI_destroy_label (l : label)
  | UI_toggle_theme
  | UI_mainloop_after
  | Worker_iteration.

Definition step (a : action) (s : State) : State :=
  match a with
  | UI_request url l w h => exec (request UI url l w h) s
  | UI_create_label l => set_widgets (<[l := None]> (widgets s)) s
  | UI_destroy_label l => set_widgets (delete l (widgets s)) s
  | UI_toggle_theme => set_theme (ThemeManager_toggle (theme s)) s
  | UI_mainloop_after => exec mainloop_after s
  | Worker_iteration => exec _worker_iteration s
  end.

Definition run (acts : list action) (s : State) : State :=
  fold_left (λ s a, step a s) acts s.

End Loader.

(** ** Concrete worlds, used to run the definitions *)

Definition poster : Image :=
  {| im_mode := RGBA; im_size := (600, 900);
     im_load := Ret (λ x y, Px 200 (x mod 256) (y mod 256) 128) |}.

Definition placeholder : Image :=
  {| im_mode := P; im_size := (64, 64);
     im_load := Ret (λ _ _, Px 90 90 90 255) |}.

(** A file whose header reads well and whose data do not decode. *)
Definition truncated : Image :=
  {| im_mode := RGB; im_size := (600, 900); im_load := Raise OSError |}.

(** The network serves one poster; one poster is a local file; of the two
    fallback assets only the second exists. *)
Definition demo_env : Env :=
  {| workspace_dir := "/app";
     os_path_join := λ a b, a +:+ "/" +:+ b;
     requests_get := λ url,
       if String.eqb url "https://good/img.jpg"
       then Ret {| status_code := 200; content := "JFIF" |}
       else if String.eqb url "https://gone/img.jpg"
       then Ret {| status_code := 404; content := "" |}
       else Raise RequestException;
     Image_open_bytes := λ c,
       if String.eqb c "JFIF" then Ret poster else Raise OSError;
     os_path_exists := λ p,
       String.eqb p "posters/a.png" || String.eqb p "/app/404.webp";
     Image_open := λ p,
       if String.eqb p "posters/a.png" then Ret poster
       else if String.eqb p "/app/404.webp" then Ret placeholder
       else Raise OSError;
     resample := λ px from to x y,
       px (x * fst from / fst to) (y * snd from / snd to);
     rounded_rectangle := λ size radius,
       Ret (λ x y, if (x + y <? 4) then 0 else 255) |}.

(** The same world without any fallback asset. *)
Definition bare_env : Env :=
  {| workspace_dir := "/app";
     os_path_join := os_path_join demo_env;
     requests_get := requests_get demo_env;
     Image_open_bytes := Image_open_bytes demo_env;
     os_path_exists := λ p, String.eqb p "posters/a.png";
     Image_open := Image_open demo_env;
     resample := resample demo_env;
     rounded_rectangle := rounded_rectangle demo_env |}.

Definition demo_init : State := ImageCacheLoader_init demo_env ThemeManager_init.

(** A loader whose fallback list is empty. *)
Definition no_fallback_init : State :=
  {| cache := ∅; queue := []; unfinished_tasks := 0; fallback_paths := [];
     theme := ThemeManager_init; var_target_label := None; var_photo := None;
     widgets := ∅; attr_image := ∅; after_queue := []; last_id := 0;
     writes := [] |}.

(** A step of [_fetch_image] produces no image: it raises or falls through. *)
Definition no_image (r : res (option Image)) : Prop :=
  ∀ img, r ≠ Ret (Some img).

(** The image a live label shows. *)
Definition displayed (s : State) (l : label) : option Photo :=
  match widgets s !! l with
  | Some (Some p) => Some p
  | _ => None
  end.

(** A theme whose card colour starts with [#] and is not six hex digits. *)
Definition bad_theme : ThemeManager :=
  {| current_theme := "dark";
     themes := list_to_map [("dark", <["card" := "#GGGGGG"]> dark_palette);
                            ("light", light_palette)] |}.

(** The request the call [request(url, target_label, width, height)] puts
    on the queue. *)
Definition request_item (url : string) (target_label : label)
    (width height : Z) : Request :=
  {| rq_url := url; rq_method := "GET"; rq_width := width;
     rq_height := height; rq_target_label := target_label |}.

(** A pixel position lies outside the box the scaled image is pasted in. *)
Definition outside_paste (target_size resized_size : Z * Z) (x y : Z) : Prop :=
  let '(x0, y0) := paste_pos_of target_size resized_size in
  ¬ (x0 ≤ x < x0 + fst resized_size ∧ y0 ≤ y < y0 + snd resized_size).

(** The canvas of [bg] shows the colour [rgb] wherever the scaled image,
    of size [resized_size], does not cover it: at every position of the
    canvas outside the box the image is pasted in. *)
Definition filled_with (bg : Image) (target_size resized_size : Z * Z)
    (rgb : Z * Z * Z) : Prop :=
  ∃ px,
    im_load bg = Ret px ∧
    ∀ x y, 0 ≤ x < fst target_size → 0 ≤ y < snd target_size →
           outside_paste target_size resized_size x y →
           pR (px x y) = CLIP8 rgb.1.1 ∧ pG (px x y) = CLIP8 rgb.1.2 ∧
           pB (px x y) = CLIP8 rgb.2.

(** What the specification asks of the walk through the fallback list:
    the first entry that exists and decodes.  An entry decodes when
    [Image.open] returns an image whose pixel data load. *)
Fixpoint first_existing_decodable (E : Env) (fps : list string)
  : option Image :=
  match fps with
  | [] => None
  | fp :: rest =>
      if os_path_exists E fp then
        match Image_open E fp with
        | Ret img =>
            match im_load img with
            | Ret _ => Some img
            | Raise _ => first_existing_decodable E rest
            end
        | Raise _ => first_existing_decodable E rest
        end
      else first_existing_decodable E rest
  end.

(** The world of [demo_env] in which the first fallback asset exists too,
    as a file that is cut off after its header. *)
Definition cut_off_env : Env :=
  {| workspace_dir := "/app";
     os_path_join := os_path_join demo_env;
     requests_get := requests_get demo_env;
     Image_open_bytes := Image_open_bytes demo_env;
     os_path_exists := λ p,
       String.eqb p "/app/INF.png" || os_path_exists demo_env p;
     Image_open := λ p,
       if String.eqb p "/app/INF.png" then Ret truncated
       else Image_open demo_env p;
     resample := resample demo_env;
     rounded_rectangle := rounded_rectangle demo_env |}.


(** ** The worker turn, part by part

    Between [queue.get] and the [task_done] of the [finally] clause the
    worker holds a request, and the UI thread goes on meanwhile.  A turn
    is taken apart here at the places where it touches the queue: the
    call of [get] (line 335), the rest of the [try] statement with its
    handlers (lines 336 to 372), and the [finally] clause (lines 373 to
    377). *)

Inductive worker_pc : Type :=
  | Idle                             (* at the top of the loop *)
  | After_get (item : option Request)
      (* [get] returned [item], or raised [queue.Empty] *)
  | Leaving (got : bool).
      (* the [try] statement is over; [got] says whether [get] had
         returned an item *)

(** The [try] body after [queue.get] returned [item]. *)
Definition _worker_after_get (E : Env) (item : Request) : M unit :=
  modify (set_var_target_label (Some (rq_target_label item)));;
  s ← get_state;
  img ← lift (_fetch_image E s (rq_url item));
  match img with
  | None => Queue_task_done
  | Some img =>
      background ← lift (compose E (theme s) img (rq_width item) (rq_height item));
      photo ← PhotoImage background;
      modify (set_var_photo (Some photo));;
      cache_setitem (rq_url item) photo;;
      Misc_after assign
  end.

(** The next part of the worker's turn. *)
Definition worker_part (E : Env) (c : State * worker_pc) : State * worker_pc :=
  let '(s, pc) := c in
  match pc with
  | Idle =>
      match Queue_get s with
      | (Ret item, s') => (s', After_get (Some item))
      | (Raise _, s') => (s', After_get None)
      end
  | After_get (Some item) =>
      (exec (try_exceptM (_worker_after_get E item) (mret tt)) s, Leaving true)
  | After_get None =>
      (s, Leaving false)                        (* except queue.Empty: continue *)
  | Leaving _ =>
      (exec (try_exceptM Queue_task_done (mret tt)) s, Idle)
  end.

(** A step of the program: an action of the UI thread ([Worker_iteration]
    is none, and does nothing here) or the next part of the worker's
    turn. *)
Inductive part : Type :=
  | UI_part (a : action)
  | Worker_part.

Definition step_part (E : Env) (p : part) (c : State * worker_pc)
  : State * worker_pc :=
  match p with
  | UI_part Worker_iteration => c
  | UI_part a => (step E a c.1, c.2)
  | Worker_part => worker_part E c
  end.

Definition run_parts (E : Env) (ps : list part) (c : State * worker_pc)
  : State * worker_pc :=
  fold_left (λ c p, step_part E p c) ps c.

(** The requests the worker holds: one between [get] and the end of the
    [finally] clause. *)
Definition held (pc : worker_pc) : Z :=
  match pc with
  | Idle | After_get None | Leaving false => 0
  | After_get (Some _) | Leaving true => 1
  end.

(** Every surface in the cache was named by a counter value already used. *)
Definition names_bounded (s : State) : Prop :=
  ∀ k p, cache s !! k = Some p → (ph_name p ≤ last_id s)%nat.

(** All the writes of a list were made by the UI thread. *)
Definition ui_only (ws : list write) : Prop :=
  Forall (λ w, write_thread w = UI) ws.

(** ** Runs: what was asked for, and the themes *)

(** A request for [url] at the size (w, h) was made in the run [acts]. *)
Definition requested (acts : list action) (url : string) (w h : Z) : Prop :=
  ∃ l, In (UI_request url l w h) acts.

(** Every queued request and every cached surface goes back to a request
    of the run, the surface with the size that request asked for. *)
Definition provenance (acts : list action) (s : State) : Prop :=
  (∀ item, In item (queue s) →
           requested acts (rq_url item) (rq_width item) (rq_height item)) ∧
  (∀ k p, cache s !! k = Some p →
          ∃ w h, requested acts k w h ∧ ph_size p = (w, h)).

(** Surfaces stored under different references have different names. *)
Definition names_distinct (s : State) : Prop :=
  ∀ k1 k2 p1 p2, cache s !! k1 = Some p1 → cache s !! k2 = Some p2 →
                 ph_name p1 = ph_name p2 → k1 = k2.

(** The theme manager after [n] calls of [toggle]. *)
Definition toggled (n : nat) : ThemeManager :=
  Nat.iter n ThemeManager_toggle ThemeManager_init.

(** The keys of the two palettes. *)
Definition palette_keys : list string :=
  ["bg"; "panel"; "text"; "muted"; "accent"; "accent_hover"; "card";
   "border"; "input"].

(** How often the theme is toggled in a run. *)
Fixpoint toggles (acts : list action) : nat :=
  match acts with
  | [] => 0
  | UI_toggle_theme :: acts => S (toggles acts)
  | _ :: acts => toggles acts
  end.

(** ** DataManager

    A data frame is the list of its rows, in index order; a row holds the
    five required columns.  [Released_Year] and [IMDB_Rating] are the
    floats [pd.to_numeric] made of the cells.  [load_csv] drops the rows
    where one of them is NaN, and keeps an infinity (a cell [inf]). *)

Module Data.

(** A float that is not NaN: a finite value, taken as an exact rational,
    or an infinity. *)
Inductive pyfloat : Type :=
  | Finite (q : Q)
  | PosInf
  | NegInf.

(** The float of an integer bound. *)
Definition of_int (z : Z) : pyfloat := Finite (inject_Z z).

(** [a <= b] on floats, as a test and as a proposition. *)
Definition fle_bool (a b : pyfloat) : bool :=
  match a, b with
  | NegInf, _ | _, PosInf => true
  | Finite x, Finite y => Qle_bool x y
  | _, _ => false
  end.

Definition fle (a b : pyfloat) : Prop :=
  match a, b with
  | NegInf, _ | _, PosInf => True
  | Finite x, Finite y => (x <= y)%Q
  | _, _ => False
  end.

(** A row of the data frame: the five required columns. *)
Record Row : Type := {
  Poster_Link : string;
  Series_Title : string;
  Released_Year : pyfloat;
  Genre : string;
  IMDB_Rating : pyfloat
}.

Record DataManager : Type := {
  original_df : option (list Row);
  filtered_df : option (list Row)
}.

Inductive data_error : Type :=
  | RuntimeError      (* "No data loaded" *)
  | re_error          (* the title is not a valid regular expression *)
  | ColumnKeyError.   (* KeyError: the frame has no such column *)

Inductive outcome (A : Type) : Type :=
  | Done (a : A)
  | Failed (e : data_error).
Arguments Done {A} a.
Arguments Failed {A} e.

(** [str.isspace] on an ASCII character, as [str.strip] and [\s] use it. *)
Definition isspace (c : ascii) : bool :=
  let n := Z.of_nat (nat_of_ascii c) in
  (n =? 32) || ((9 <=? n) && (n <=? 13)) || ((28 <=? n) && (n <=? 31)).

Definition is_comma (c : ascii) : bool := Ascii.eqb c ","%char.

(** [s.lower()] *)
Definition lower_char (c : ascii) : ascii :=
  let n := nat_of_ascii c in
  if (65 <=? n)%nat && (n <=? 90)%nat then ascii_of_nat (n + 32) else c.

Fixpoint lower (s : string) : string :=
  match s with
  | EmptyString => EmptyString
  | String c s' => String (lower_char c) (lower s')
  end.

Fixpoint lstrip (s : string) : string :=
  match s with
  | String c s' => if isspace c then lstrip s' else s
  | EmptyString => s
  end.

Fixpoint rstrip (s : string) : string :=
  match s with
  | EmptyString => EmptyString
  | String c s' =>
      match rstrip s' with
      | EmptyString => if isspace c then EmptyString else String c EmptyString
      | r => String c r
      end
  end.

(** [s.strip()] *)
Definition strip (s : string) : string := rstrip (lstrip s).

(** [s.split(",")] *)
Fixpoint split_comma (s : string) : list string :=
  match s with
  | EmptyString => [EmptyString]
  | String c s' =>
      if is_comma c then EmptyString :: split_comma s'
      else
        match split_comma s' with
        | t :: ts => String c t :: ts
        | [] => [String c EmptyString]
        end
  end.

(** [re.split(r",\s*", s)]: [skip] says that a comma was just read and the
    whitespace after it is still being consumed. *)
Fixpoint re_split_aux (skip : bool) (s : string) : list string :=
  match s with
  | EmptyString => [EmptyString]
  | String c s' =>
      if is_comma c then EmptyString :: re_split_aux true s'
      else if skip && isspace c then re_split_aux true s'
      else
        match re_split_aux false s' with
        | t :: ts => String c t :: ts
        | [] => [String c EmptyString]
        end
  end.

Definition re_split (s : string) : list string := re_split_aux false s.

(** [sorted(set(l))] for strings: insertion keeps the list increasing and
    free of duplicates. *)
Fixpoint insert_sorted (x : string) (l : list string) : list string :=
  match l with
  | [] => [x]
  | y :: l' =>
      match String_as_OT.compare x y with
      | Lt => x :: l
      | Eq => l
      | Gt => y :: insert_sorted x l'
      end
  end.

Definition sorted_set (l : list string) : list string :=
  fold_right insert_sorted [] l.

(** [int(x)] of a finite float: towards zero. *)
Definition py_int (x : Q) : Z := Z.quot (Qnum x) (Z.pos (Qden x)).

(** [int(x)] of a float: an infinity cannot be converted. *)
Definition int_of_float (x : pyfloat) : res Z :=
  match x with
  | Finite q => Ret (py_int q)
  | PosInf | NegInf => Raise OverflowError
  end.

(** The minimum and the maximum of a column that is not empty. *)
Definition col_min (x : pyfloat) (xs : list pyfloat) : pyfloat :=
  fold_left (λ m y, if fle_bool m y then m else y) xs x.
Definition col_max (x : pyfloat) (xs : list pyfloat) : pyfloat :=
  fold_left (λ m y, if fle_bool y m then m else y) xs x.

Section WithRegex.

(** [re.compile(pat)]: the predicate "the pattern is found in the text",
    or nothing when the pattern does not compile. *)
Variable re_compile : string → option (string → bool).

(** The test of the genre filter on one cell. *)
Definition genre_selected (selected_genres : list string) (txt : string) : bool :=
  existsb
    (λ g, existsb (String.eqb g) (map strip (split_comma txt)))
    selected_genres.

(** One row against the filters that are set. *)
Definition title_found (title_query : string) (r : Row) : bool :=
  if truthy title_query then
    match re_compile (lower title_query) with
    | Some found => found (lower (Series_Title r))
    | None => false
    end
  else true.

Definition genre_ok (selected_genres : option (list string)) (r : Row) : bool :=
  match selected_genres with
  | Some (g :: gs) => genre_selected (g :: gs) (Genre r)
  | _ => true
  end.

Definition year_from (min_year : option Z) (r : Row) : bool :=
  match min_year with
  | Some y => fle_bool (of_int y) (Released_Year r)
  | None => true
  end.

Definition year_to (max_year : option Z) (r : Row) : bool :=
  match max_year with
  | Some y => fle_bool (Released_Year r) (of_int y)
  | None => true
  end.

Definition rating_from (min_rating : option Q) (r : Row) : bool :=
  match min_rating with
  | Some m => fle_bool (Finite m) (IMDB_Rating r)
  | None => true
  end.

(** [apply_filters]: the result and the manager it leaves.  The mask of
    the genre filter is made with [Series.apply]; on a frame without rows
    pandas returns an empty mask of dtype object, which [df[mask]] takes
    for an empty list of column labels: the frame then has no column
    ([columns_lost]), and a year or rating filter after it raises
    [KeyError]. *)
Definition apply_filters (self : DataManager) (title_query : string)
    (selected_genres : option (list string)) (min_year max_year : option Z)
    (min_rating : option Q) : outcome (list Row) * DataManager :=
  match original_df self with
  | None => (Failed RuntimeError, self)
  | Some df =>
      let after_title :=
        if truthy title_query then
          match re_compile (lower title_query) with
          | Some found => Done (List.filter (λ r, found (lower (Series_Title r))) df)
          | None => Failed re_error
          end
        else Done df in
      match after_title with
      | Failed e => (Failed e, self)
      | Done df =>
          let '(df, columns_lost) :=
            match selected_genres with
            | Some (g :: gs) =>
                (List.filter (λ r, genre_selected (g :: gs) (Genre r)) df,
                 match df with [] => true | _ :: _ => false end)
            | _ => (df, false)
            end in
          let after_year_from :=
            match min_year with
            | Some y =>
                if columns_lost then Failed ColumnKeyError
                else Done (List.filter (λ r, fle_bool (of_int y) (Released_Year r)) df)
            | None => Done df
            end in
          match after_year_from with
          | Failed e => (Failed e, self)
          | Done df =>
              let after_year_to :=
                match max_year with
                | Some y =>
                    if columns_lost then Failed ColumnKeyError
                    else Done (List.filter (λ r, fle_bool (Released_Year r) (of_int y)) df)
                | None => Done df
                end in
              match after_year_to with
              | Failed e => (Failed e, self)
              | Done df =>
                  let after_rating :=
                    match min_rating with
                    | Some m =>
                        if columns_lost then Failed ColumnKeyError
                        else Done (List.filter (λ r, fle_bool (Finite m) (IMDB_Rating r)) df)
                    | None => Done df
                    end in
                  match after_rating with
                  | Failed e => (Failed e, self)
                  | Done df =>
                      (Done df,
                       {| original_df := original_df self;
                          filtered_df := Some df |})
                  end
              end
          end
      end
  end.

(** A row passes all the filters that are set. *)
Definition row_passes (title_query : string)
    (selected_genres : option (list string)) (min_year max_year : option Z)
    (min_rating : option Q) (r : Row) : bool :=
  title_found title_query r && genre_ok selected_genres r &&
  year_from min_year r && year_to max_year r && rating_from min_rating r.

End WithRegex.

(** [is_loaded] *)
Definition is_loaded (self : DataManager) : bool :=
  match original_df self with Some _ => true | None => false end.

(** [genres] *)
Definition genres (self : DataManager) : list string :=
  match original_df self with
  | None | Some [] => []
  | Some df =>
      let s := map strip (concat (map (λ r, re_split (Genre r)) df)) in
      sorted_set (List.filter truthy s)
  end.

(** [years_range]: [int] raises [OverflowError] on an infinite minimum or
    maximum. *)
Definition years_range (self : DataManager) : res (Z * Z) :=
  match original_df self with
  | None | Some [] => Ret (1900, 2025)
  | Some (r :: rs) =>
      lo ← int_of_float (col_min (Released_Year r) (map Released_Year rs));
      hi ← int_of_float (col_max (Released_Year r) (map Released_Year rs));
      Ret (lo, hi)
  end.

End Data.
Import Data.

(** The stripped tokens of the [Genre] cells, as the genre filter reads
    them. *)
Definition genre_tokens (df : list Row) : list string :=
  concat (map (λ r, map strip (split_comma (Genre r))) df).

(** A small data set and a stand-in for [re.compile]: every pattern but
    ["("] compiles, to a plain substring search. *)
Definition demo_rows : list Row :=
  [ {| Poster_Link := "posters/a.png"; Series_Title := "The Godfather";
       Released_Year := of_int 1972; Genre := "Crime, Drama";
       IMDB_Rating := Finite (92 # 10) |};
    {| Poster_Link := "https://good/img.jpg"; Series_Title := "Inception";
       Released_Year := of_int 2010; Genre := "Action, Adventure, Sci-Fi";
       IMDB_Rating := Finite (88 # 10) |};
    {| Poster_Link := ""; Series_Title := "Coco";
       Released_Year := of_int 2017; Genre := "Animation,Adventure , Family";
       IMDB_Rating := Finite (84 # 10) |} ].

Definition demo_data : DataManager :=
  {| original_df := Some demo_rows; filtered_df := Some demo_rows |}.

Definition no_data : DataManager :=
  {| original_df := None; filtered_df := None |}.

(** The data sets after a row whose year cell read [inf] was loaded too. *)
Definition endless_rows : list Row :=
  demo_rows ++
  [ {| Poster_Link := ""; Series_Title := "Forever";
       Released_Year := PosInf; Genre := "Drama";
       IMDB_Rating := Finite (70 # 10) |} ].

Definition endless_data : DataManager :=
  {| original_df := Some endless_rows; filtered_df := Some endless_rows |}.

Definition demo_re (pat : string) : option (string → bool) :=
  if String.eqb pat "(" then None
  else Some (λ text, match String.index 0 pat text with
                     | Some _ => true
                     | None => false
                     end).

(** Proof steps: unfold the statements of the loader down to matches on the
    state, and split on every match. *)
Ltac unfold_stmt :=
  repeat progress
    unfold exec, _worker_iteration, _worker_body, try_finally, try_exceptM,
      request, run_assign, mainloop_after, cache_getitem, cache_setitem,
      Queue_put, Queue_get, Queue_task_done, Label_configure, Label_set_image,
      Misc_after, PhotoImage, modify, get_state, lift,
      mbind, mret, M_mbind, M_mret, M_bind, M_ret in *.

Ltac split_cases := repeat (case_match; simpl in *; simplify_eq).

Ltac unfold_res := unfold mbind, mret, res_mbind, res_mret, res_bind in *.

(** * Properties *)

(** ** The source resolver *)

Lemma try_except_no_image r :
  no_image r → try_except r (Ret None) = Ret None.
Proof.
  intros H. destruct r as [[img|]|e]; simpl; try reflexivity.
  exfalso. exact (H img eq_refl).
Qed.

Lemma walk_fallbacks_none E fps :
  Forall (λ fp, no_image (fetch_fallback E fp)) fps →
  walk_fallbacks E fps = Ret None.
Proof.
  induction 1 as [|fp rest Hfp _ IH]; simpl; [reflexivity|].
  destruct (fetch_fallback E fp) as [[img|]|e]; try exact IH.
  exfalso. exact (Hfp img eq_refl).
Qed.

Lemma walk_fallbacks_first E pre fp post img :
  Forall (λ p, no_image (fetch_fallback E p)) pre →
  fetch_fallback E fp = Ret (Some img) →
  walk_fallbacks E (pre ++ fp :: post) = Ret (Some img).
Proof.
  intros Hpre Hfp. induction Hpre as [|p rest Hp _ IH]; simpl.
  - rewrite Hfp. reflexivity.
  - destruct (fetch_fallback E p) as [[img'|]|e]; try exact IH.
    exfalso. exact (Hp img' eq_refl).
Qed.

Lemma walk_fallbacks_total E fps : ∃ r, walk_fallbacks E fps = Ret r.
Proof.
  induction fps as [|fp rest IH]; simpl; [eauto|].
  destruct (fetch_fallback E fp) as [[img|]|e]; eauto.
Qed.

Lemma fetch_fallback_spec E fp img :
  fetch_fallback E fp = Ret (Some img) ↔
  os_path_exists E fp = true ∧ Image_open E fp = Ret img.
Proof.
  unfold fetch_fallback. destruct (os_path_exists E fp); simpl.
  - destruct (Image_open E fp) as [i|e]; simpl; split.
    + intros [= ->]. auto.
    + intros [_ [= ->]]. reflexivity.
    + discriminate.
    + intros [_ [=]].
  - split; [discriminate | intros [[=] _]].
Qed.

Lemma fetch_local_no_image E url :
  (∀ img, ¬ (os_path_exists E url = true ∧ Image_open E url = Ret img)) →
  no_image (fetch_local E url).
Proof.
  intros H img. unfold fetch_local.
  destruct (truthy url); simpl; [|discriminate].
  destruct (os_path_exists E url) eqn:Hex; simpl; [|discriminate].
  destruct (Image_open E url) as [i|e] eqn:Hop; simpl; [|discriminate].
  intros [= ->]. apply (H img). auto.
Qed.


(** C4.  [_fetch_image] never raises; when the network step, the local
    step and every entry of the fallback list produce no image (so also
    with an empty fallback list), it returns [None]. *)
Theorem fetch_image_absent_not_raised E self url :
  (∃ r, _fetch_image E self url = Ret r) ∧
  (no_image (fetch_network E url) →
   no_image (fetch_local E url) →
   Forall (λ fp, no_image (fetch_fallback E fp)) (fallback_paths self) →
   _fetch_image E self url = Ret None).
Proof.
  split.
  - unfold _fetch_image.
    destruct (fetch_network E url) as [[i|]|e]; simpl; eauto;
      (destruct (fetch_local E url) as [[i|]|e']; simpl; eauto;
       apply walk_fallbacks_total).
  - intros Hnet Hloc Hfb. unfold _fetch_image.
    rewrite (try_except_no_image _ Hnet). simpl.
    rewrite (try_except_no_image _ Hloc). simpl.
    apply walk_fallbacks_none. exact Hfb.
Qed.

Lemma fetch_image_absent_not_raised_witness :
  _fetch_image bare_env no_fallback_init "https://gone/img.jpg" = Ret None.
Proof.
  apply (fetch_image_absent_not_raised bare_env no_fallback_init
           "https://gone/img.jpg").
  - intros img. discriminate.
  - intros img. discriminate.
  - constructor.
Defined.

(** ** The worker loop, one turn at a time *)

Lemma fetch_image_self E s s' url :
  fallback_paths s' = fallback_paths s →
  _fetch_image E s' url = _fetch_image E s url.
Proof. intros H. unfold _fetch_image. rewrite H. reflexivity. Qed.

(** What no turn of the worker touches. *)
Lemma worker_iteration_frame E s :
  let s' := exec (_worker_iteration E) s in
  widgets s' = widgets s ∧ attr_image s' = attr_image s ∧
  writes s' = writes s ∧ fallback_paths s' = fallback_paths s ∧
  theme s' = theme s.
Proof. unfold_stmt. simpl. split_cases; auto. Qed.

(** A turn never lets an exception out. *)
Lemma worker_iteration_returns E s : (_worker_iteration E s).1 = Ret tt.
Proof. unfold_stmt. simpl. split_cases; auto. Qed.

(** A turn that finds the queue empty. *)
Lemma worker_iteration_empty E s :
  queue s = [] →
  let s' := exec (_worker_iteration E) s in
  cache s' = cache s ∧ after_queue s' = after_queue s ∧
  last_id s' = last_id s ∧ queue s' = [] ∧
  var_target_label s' = var_target_label s ∧ var_photo s' = var_photo s.
Proof.
  intros Hq. unfold_stmt. simpl. rewrite Hq. simpl.
  split_cases; repeat split; auto.
Qed.

(** A turn whose request resolves to nothing. *)
Lemma worker_iteration_absent E s item rest :
  queue s = item :: rest →
  _fetch_image E s (rq_url item) = Ret None →
  let s' := exec (_worker_iteration E) s in
  cache s' = cache s ∧ after_queue s' = after_queue s ∧
  last_id s' = last_id s ∧ queue s' = rest ∧
  var_target_label s' = Some (rq_target_label item) ∧
  var_photo s' = var_photo s.
Proof.
  intros Hq Hf. unfold_stmt. simpl. rewrite Hq. simpl.
  rewrite (fetch_image_self E s) by reflexivity. rewrite Hf. simpl.
  split_cases; repeat split; auto.
Qed.

(** A turn whose request resolves and whose compositing raises. *)
Lemma worker_iteration_compose_raises E s item rest img e :
  queue s = item :: rest →
  _fetch_image E s (rq_url item) = Ret (Some img) →
  compose E (theme s) img (rq_width item) (rq_height item) = Raise e →
  let s' := exec (_worker_iteration E) s in
  cache s' = cache s ∧ after_queue s' = after_queue s ∧
  last_id s' = last_id s ∧ queue s' = rest ∧
  var_target_label s' = Some (rq_target_label item) ∧
  var_photo s' = var_photo s.
Proof.
  intros Hq Hf Hc. unfold_stmt. simpl. rewrite Hq. simpl.
  rewrite (fetch_image_self E s) by reflexivity. rewrite Hf. simpl.
  rewrite Hc. simpl. split_cases; repeat split; auto.
Qed.

(** A turn whose request resolves and composites. *)
Lemma worker_iteration_success E s item rest img bg :
  queue s = item :: rest →
  _fetch_image E s (rq_url item) = Ret (Some img) →
  compose E (theme s) img (rq_width item) (rq_height item) = Ret bg →
  let s' := exec (_worker_iteration E) s in
  let photo := {| ph_name := S (last_id s); ph_image := bg |} in
  cache s' = <[rq_url item := photo]> (cache s) ∧
  after_queue s' = (after_queue s ++ [assign])%list ∧
  last_id s' = S (last_id s) ∧ queue s' = rest ∧
  var_target_label s' = Some (rq_target_label item) ∧
  var_photo s' = Some photo.
Proof.
  intros Hq Hf Hc. unfold_stmt. simpl. rewrite Hq. simpl.
  rewrite (fetch_image_self E s) by reflexivity. rewrite Hf. simpl.
  rewrite Hc. simpl. split_cases; repeat split; auto.
Qed.

(** Every turn: either no surface was made and nothing was scheduled, or
    one surface was made, stored under some key and its [assign] scheduled. *)
Lemma worker_iteration_cases E s :
  let s' := exec (_worker_iteration E) s in
  (cache s' = cache s ∧ after_queue s' = after_queue s ∧
   last_id s' = last_id s) ∨
  (∃ url bg,
     cache s' = <[url := {| ph_name := S (last_id s); ph_image := bg |}]> (cache s) ∧
     after_queue s' = (after_queue s ++ [assign])%list ∧
     last_id s' = S (last_id s)).
Proof.
  unfold_stmt. simpl. split_cases; auto; right; eauto.
Qed.

(** ** The compositor *)

Lemma bg_rgb_of_default bg_hex :
  startswith bg_hex "#" = false → bg_rgb_of bg_hex = Ret (24, 24, 24).
Proof. intros H. unfold bg_rgb_of. rewrite H. reflexivity. Qed.

Lemma bg_rgb_of_hex bg_hex r g b :
  startswith bg_hex "#" = true →
  int16 (slice2 bg_hex 1) = Ret r →
  int16 (slice2 bg_hex 3) = Ret g →
  int16 (slice2 bg_hex 5) = Ret b →
  bg_rgb_of bg_hex = Ret (r, g, b).
Proof.
  intros H Hr Hg Hb. unfold bg_rgb_of. rewrite H. unfold_res.
  rewrite Hr, Hg, Hb. reflexivity.
Qed.

(** The steps a successful [compose] went through. *)
Lemma compose_inv E th img w h bg :
  compose E th img w h = Ret bg →
  ∃ rgb resized bg_hex color base,
    convert_RGB img = Ret rgb ∧
    ImageOps.contain (resample E) rgb (w, h) = Ret resized ∧
    ThemeManager_get th "card" = Ret bg_hex ∧
    bg_rgb_of bg_hex = Ret color ∧
    new_RGB (w, h) color = Ret base ∧
    bg = round_corners E
           (paste base resized (paste_pos_of (w, h) (im_size resized))) (w, h).
Proof.
  unfold compose. unfold_res. intros H.
  destruct (convert_RGB img) as [rgb|] eqn:H1; [|discriminate].
  destruct (ImageOps.contain _ rgb _) as [resized|] eqn:H2; [|discriminate].
  destruct (ThemeManager_get th "card") as [bg_hex|] eqn:H3; [|discriminate].
  destruct (bg_rgb_of bg_hex) as [color|] eqn:H4; [|discriminate].
  destruct (new_RGB (w, h) color) as [base|] eqn:H5; [|discriminate].
  injection H as <-. exists rgb, resized, bg_hex, color, base. auto 10.
Qed.

Lemma round_corners_size E im size : im_size (round_corners E im size) = im_size im.
Proof. unfold round_corners. destruct (rounded_rectangle E size 12); reflexivity. Qed.

Lemma paste_size base im pos : im_size (paste base im pos) = im_size base.
Proof. destruct pos. reflexivity. Qed.

Lemma new_RGB_inv size color base :
  new_RGB size color = Ret base →
  im_size base = size ∧
  im_load base =
    Ret (λ _ _, Px (CLIP8 color.1.1) (CLIP8 color.1.2) (CLIP8 color.2) 255).
Proof.
  destruct color as [[r g] b]. unfold new_RGB.
  repeat case_match; try discriminate. intros [= <-]. auto.
Qed.

(** The composited image has the target size. *)
Lemma compose_size E th img w h bg :
  compose E th img w h = Ret bg → im_size bg = (w, h).
Proof.
  intros H. apply compose_inv in H
    as (rgb & resized & bg_hex & color & base & _ & _ & _ & _ & Hn & ->).
  rewrite round_corners_size, paste_size.
  apply new_RGB_inv in Hn. tauto.
Qed.

Lemma resize_loaded rs im size r :
  ImageOps.resize rs im size = Ret r → ∃ px, im_load r = Ret px.
Proof.
  unfold ImageOps.resize. unfold_res.
  destruct (im_load im) as [px|] eqn:Hl; [|discriminate].
  destruct (_ && _).
  - intros [= <-]. eauto.
  - destruct (_ || _); [discriminate|]. intros [= <-]. simpl. eauto.
Qed.

Lemma putalpha_load base mask b :
  im_load base = Ret b →
  im_load (putalpha base mask) =
    Ret (λ x y, let p := b x y in Px (pR p) (pG p) (pB p) (mask x y)).
Proof. intros H. unfold putalpha. simpl. rewrite H. reflexivity. Qed.

Lemma convert_RGB_size img rgbim :
  convert_RGB img = Ret rgbim → im_size rgbim = im_size img.
Proof.
  unfold convert_RGB. unfold_res.
  destruct (im_load img); [|discriminate]. intros [= <-]. reflexivity.
Qed.

(** The scaled image has the size [contain_size] computes. *)
Lemma contain_result_size rs im size resized :
  ImageOps.contain rs im size = Ret resized →
  ImageOps.contain_size (im_size im) size = Ret (im_size resized).
Proof.
  unfold ImageOps.contain. unfold_res.
  destruct (ImageOps.contain_size (im_size im) size) as [[w' h']|]; [|discriminate].
  unfold ImageOps.resize. unfold_res.
  destruct (im_load im); [|discriminate]. simpl.
  destruct ((w' =? width im) && (h' =? height im)) eqn:Hsame.
  - intros [= <-]. apply andb_true_iff in Hsame as [Hw Hh].
    apply Z.eqb_eq in Hw, Hh. subst. unfold width, height.
    destruct (im_size im); reflexivity.
  - destruct (_ || _); [discriminate|]. intros [= <-]. reflexivity.
Qed.

(** The canvas is filled with the decoded card colour: every pixel outside
    the box of the pasted image has it, and the box has the size
    [contain_size] computes from the size of the image. *)
Lemma compose_fill E th img w h bg :
  compose E th img w h = Ret bg →
  ∃ bg_hex r g b rsz px,
    ThemeManager_get th "card" = Ret bg_hex ∧
    bg_rgb_of bg_hex = Ret (r, g, b) ∧
    ImageOps.contain_size (im_size img) (w, h) = Ret rsz ∧
    im_load bg = Ret px ∧
    ∀ x y, outside_paste (w, h) rsz x y →
           pR (px x y) = CLIP8 r ∧ pG (px x y) = CLIP8 g ∧ pB (px x y) = CLIP8 b.
Proof.
  intros H. apply compose_inv in H
    as (rgb & resized & bg_hex & [[r g] b] & base & Hcv & Hc & Hg & Hb & Hn & ->).
  apply new_RGB_inv in Hn as [Hsz Hld]. simpl in Hld.
  pose proof (contain_result_size _ _ _ _ Hc) as Hrsz.
  rewrite (convert_RGB_size _ _ Hcv) in Hrsz.
  unfold ImageOps.contain in Hc. unfold_res.
  destruct (ImageOps.contain_size (im_size rgb) _) as [size'|]; [|discriminate].
  apply resize_loaded in Hc as [spx Hspx].
  assert (Hp : ∃ px, im_load (paste base resized (paste_pos_of (w, h) (im_size resized))) = Ret px ∧
     ∀ x y, outside_paste (w, h) (im_size resized) x y →
            pR (px x y) = CLIP8 r ∧ pG (px x y) = CLIP8 g ∧ pB (px x y) = CLIP8 b).
  { unfold outside_paste, paste.
    destruct (paste_pos_of (w, h) (im_size resized)) as [x0 y0]. simpl.
    rewrite Hld, Hspx. unfold_res. eexists. split; [reflexivity|].
    intros x y Hout. simpl.
    destruct ((x0 <=? x) && (x <? x0 + width resized) &&
              (y0 <=? y) && (y <? y0 + height resized)) eqn:Hin; [|auto].
    exfalso. apply Hout. unfold width, height in Hin.
    rewrite !andb_true_iff in Hin. lia. }
  destruct Hp as (px & Hpx & Hfill).
  exists bg_hex, r, g, b, (im_size resized). unfold round_corners.
  destruct (rounded_rectangle E (w, h) 12) as [mask|].
  - eexists. split; [exact Hg|]. split; [exact Hb|]. split; [exact Hrsz|].
    split; [apply putalpha_load, Hpx|].
    intros x y Hout. simpl. apply Hfill, Hout.
  - exists px. auto.
Qed.

(** Where the default stops.  With a theme made by hand whose card colour
    starts with [#] and does not hold six hex digits, [int] raises, the
    handler of the worker loop swallows the error, and the request ends
    without a surface.  The program builds its one theme manager from
    literals that decode (see [reachable_card_colour] below), so this is
    not a state it reaches. *)
Lemma non_hex_colour_after_hash_is_not_replaced :
  let url := "posters/a.png" in
  let s0 := run demo_env [UI_create_label 1%nat; UI_request url 1%nat 140 210]
              (ImageCacheLoader_init demo_env bad_theme) in
  let s1 := step demo_env Worker_iteration s0 in
  ThemeManager_get (theme s0) "card" = Ret "#GGGGGG" ∧
  bg_rgb_of "#GGGGGG" = Raise ValueError ∧
  _fetch_image demo_env s0 url = Ret (Some poster) ∧
  compose demo_env (theme s0) poster 140 210 = Raise ValueError ∧
  queue s0 = [request_item url 1%nat 140 210] ∧
  queue s1 = [] ∧ cache s1 !! url = None ∧ after_queue s1 = [] ∧
  last_id s1 = 0%nat ∧ displayed s1 1%nat = None.
Proof. vm_compute. repeat split; reflexivity. Qed.

(** C6.  The label of a request that resolved to nothing does not stay as
    it was: the turn that drops the request has put its label in the
    variable [target_label] the waiting [assign] of the request before it
    reads, so the event loop then shows that other surface on it, and the
    label of the other request stays empty. *)
Theorem absent_request_label_gets_other_surface :
  let s0 := run bare_env
              [UI_create_label 1%nat; UI_create_label 2%nat;
               UI_request "posters/a.png" 1%nat 140 210;
               UI_request "missing/path.png" 2%nat 140 210]
              (ImageCacheLoader_init bare_env ThemeManager_init) in
  let s1 := step bare_env Worker_iteration s0 in
  let s2 := step bare_env Worker_iteration s1 in
  let s3 := step bare_env UI_mainloop_after s2 in
  _fetch_image bare_env s1 "missing/path.png" = Ret None ∧
  after_queue s1 = [assign] ∧
  displayed s0 2%nat = None ∧ displayed s2 2%nat = None ∧
  cache s2 !! "missing/path.png" = None ∧
  ph_name <$> cache s3 !! "posters/a.png" = Some 1%nat ∧
  ph_name <$> displayed s3 2%nat = Some 1%nat ∧
  displayed s3 1%nat = None ∧ after_queue s3 = [].
Proof. vm_compute. repeat split; reflexivity. Qed.

(** ** Requests *)

Lemma request_hit t s url l w h p :
  cache s !! url = Some p →
  is_Some (widgets s !! l) →
  let s' := exec (request t url l w h) s in
  (request t url l w h s).1 = Ret tt ∧
  displayed s' l = Some p ∧
  widgets s' = <[l := Some p]> (widgets s) ∧
  attr_image s' = <[l := p]> (attr_image s) ∧
  writes s' = (writes s ++ [W_configure t l p; W_attr t l p])%list ∧
  queue s' = queue s ∧ unfinished_tasks s' = unfinished_tasks s ∧
  cache s' = cache s ∧ last_id s' = last_id s ∧
  after_queue s' = after_queue s.
Proof.
  intros Hc [o Hw]. unfold displayed. unfold_stmt. simpl.
  rewrite Hc. rewrite bool_decide_eq_true_2 by eauto. simpl.
  rewrite Hc. simpl. rewrite Hw. simpl. rewrite Hc. simpl.
  rewrite lookup_insert_eq, <- app_assoc. repeat split; reflexivity.
Qed.

Lemma request_miss t s url l w h :
  cache s !! url = None →
  let s' := exec (request t url l w h) s in
  (request t url l w h s).1 = Ret tt ∧
  queue s' = (queue s ++ [request_item url l w h])%list ∧
  unfinished_tasks s' = unfinished_tasks s + 1 ∧
  widgets s' = widgets s ∧ attr_image s' = attr_image s ∧
  writes s' = writes s ∧ cache s' = cache s ∧ last_id s' = last_id s ∧
  after_queue s' = after_queue s ∧ theme s' = theme s.
Proof.
  intros Hc. unfold_stmt. simpl. rewrite Hc.
  rewrite bool_decide_eq_false_2 by (intros [? ?]; discriminate). simpl.
  repeat split; reflexivity.
Qed.

(** C5.  On a reference that is in the cache, [request] applies the cached
    surface to the (live) destination at once, in the calling thread, and
    returns with queue, cache and image counter as they were, so nothing is
    fetched or composited again; on a reference that is not, it puts the
    request at the end of the queue and returns without touching a widget. *)
Theorem request_hit_applies_miss_enqueues t s url l w h :
  let s' := exec (request t url l w h) s in
  (∀ p, cache s !! url = Some p → is_Some (widgets s !! l) →
        (request t url l w h s).1 = Ret tt ∧
        displayed s' l = Some p ∧ attr_image s' !! l = Some p ∧
        writes s' = (writes s ++ [W_configure t l p; W_attr t l p])%list ∧
        queue s' = queue s ∧ unfinished_tasks s' = unfinished_tasks s ∧
        cache s' = cache s ∧ last_id s' = last_id s ∧
        after_queue s' = after_queue s) ∧
  (cache s !! url = None →
        (request t url l w h s).1 = Ret tt ∧
        queue s' = (queue s ++ [request_item url l w h])%list ∧
        widgets s' = widgets s ∧ attr_image s' = attr_image s ∧
        writes s' = writes s ∧ cache s' = cache s ∧ last_id s' = last_id s ∧
        after_queue s' = after_queue s).
Proof.
  split.
  - intros p Hc Hw.
    destruct (request_hit t s url l w h p Hc Hw)
      as (H1 & H2 & _ & H4 & H5 & H6 & H7 & H8 & H9 & H10).
    rewrite H4, lookup_insert_eq. auto 10.
  - intros Hc.
    destruct (request_miss t s url l w h Hc)
      as (H1 & H2 & _ & H4 & H5 & H6 & H7 & H8 & H9 & _).
    auto 10.
Qed.

Lemma request_hit_applies_miss_enqueues_witness :
  let s := run demo_env
             [UI_create_label 1%nat; UI_create_label 2%nat;
              UI_request "posters/a.png" 1%nat 140 210; Worker_iteration]
             demo_init in
  (ph_name <$> displayed (exec (request UI "posters/a.png" 2%nat 140 210) s) 2%nat
     = Some 1%nat ∧
   queue (exec (request UI "posters/a.png" 2%nat 140 210) s) = []) ∧
  (queue (exec (request UI "https://good/img.jpg" 2%nat 140 210) s)
     = [request_item "https://good/img.jpg" 2%nat 140 210] ∧
   widgets (exec (request UI "https://good/img.jpg" 2%nat 140 210) s)
     = widgets s).
Proof.
  intros s. split.
  - destruct (request_hit_applies_miss_enqueues UI s
                "posters/a.png" 2%nat 140 210) as [Hhit _].
    destruct (cache s !! "posters/a.png") as [p|] eqn:Hp;
      [|vm_compute in Hp; discriminate Hp].
    destruct (Hhit p eq_refl) as (_ & Hd & _ & _ & Hq & _).
    + vm_compute. eauto.
    + rewrite Hd, Hq. split; [|reflexivity].
      assert (Hn : ph_name <$> cache s !! "posters/a.png" = Some 1%nat)
        by (vm_compute; reflexivity).
      rewrite Hp in Hn. exact Hn.
  - destruct (request_hit_applies_miss_enqueues UI s
                "https://good/img.jpg" 2%nat 140 210) as [_ Hmiss].
    destruct Hmiss as (_ & Hq & Hw & _); [vm_compute; reflexivity|].
    rewrite Hq, Hw. split; reflexivity.
Defined.

(** ** Runs of the whole program *)

Lemma run_app E acts1 acts2 s :
  run E (acts1 ++ acts2) s = run E acts2 (run E acts1 s).
Proof. unfold run. apply fold_left_app. Qed.

Lemma run_cons E a acts s : run E (a :: acts) s = run E acts (step E a s).
Proof. reflexivity. Qed.

(** Steps other than the worker's make no surface and leave the cache. *)
Lemma step_ui_cache E a s :
  a ≠ Worker_iteration →
  cache (step E a s) = cache s ∧ last_id (step E a s) = last_id s.
Proof.
  intros Ha. destruct a; try (split; reflexivity); [| |congruence].
  - simpl. unfold_stmt. simpl. split_cases; auto.
  - simpl. unfold_stmt. simpl. split_cases; auto.
Qed.

Lemma step_names_bounded E a s :
  names_bounded s → names_bounded (step E a s).
Proof.
  intros Hs.
  assert (a = Worker_iteration ∨ a ≠ Worker_iteration) as [->|Ha]
    by (destruct a; auto; right; discriminate).
  - simpl. destruct (worker_iteration_cases E s)
      as [(Hc & _ & Hl)|(url & bg & Hc & _ & Hl)];
      intros k p; rewrite Hc, Hl.
    + apply Hs.
    + destruct (decide (url = k)) as [->|Hk].
      * rewrite lookup_insert_eq. intros [= <-]. simpl. lia.
      * rewrite lookup_insert_ne by exact Hk. intros Hp.
        specialize (Hs k p Hp). lia.
  - destruct (step_ui_cache E a s Ha) as [Hc Hl].
    intros k p. rewrite Hc, Hl. apply Hs.
Qed.

Lemma run_names_bounded E acts s :
  names_bounded s → names_bounded (run E acts s).
Proof.
  revert s. induction acts as [|a acts IH]; intros s Hs; [exact Hs|].
  rewrite run_cons. apply IH, step_names_bounded, Hs.
Qed.

Lemma init_names_bounded E th : names_bounded (ImageCacheLoader_init E th).
Proof. intros k p. simpl. rewrite lookup_empty. discriminate. Qed.

(** The writes a step adds are all made by the UI thread. *)
Lemma step_writes E a s :
  ∃ ws, writes (step E a s) = (writes s ++ ws)%list ∧ ui_only ws.
Proof.
  destruct a; simpl;
    try (exists []; rewrite app_nil_r; split; [reflexivity|constructor]).
  - unfold_stmt. simpl. split_cases; simpl; rewrite <- ?app_assoc;
      first [ eexists; split; [reflexivity|]; repeat constructor
            | exists []; rewrite app_nil_r; split; [reflexivity|constructor] ].
  - unfold_stmt. simpl. split_cases; simpl; rewrite <- ?app_assoc;
      first [ eexists; split; [reflexivity|]; repeat constructor
            | exists []; rewrite app_nil_r; split; [reflexivity|constructor] ].
  - destruct (worker_iteration_frame E s) as (_ & _ & Hw & _).
    exists []. rewrite app_nil_r. split; [exact Hw|constructor].
Qed.

Lemma run_writes E acts s : ui_only (writes s) → ui_only (writes (run E acts s)).
Proof.
  revert s. induction acts as [|a acts IH]; intros s Hs; [exact Hs|].
  rewrite run_cons. apply IH.
  destruct (step_writes E a s) as (ws & -> & Hws).
  apply Forall_app. split; assumption.
Qed.

(** The event loop running a waiting [assign] while [target_label] and
    [photo] hold [l] and [p], [l] being a live label. *)
Lemma mainloop_after_assign s rest l p :
  after_queue s = assign :: rest →
  var_target_label s = Some l →
  var_photo s = Some p →
  is_Some (widgets s !! l) →
  let s' := exec mainloop_after s in
  displayed s' l = Some p ∧ attr_image s' !! l = Some p ∧
  writes s' = (writes s ++ [W_configure UI l p; W_attr UI l p])%list ∧
  after_queue s' = rest ∧ cache s' = cache s.
Proof.
  intros Hq Hl Hp [o Hw]. unfold displayed. unfold_stmt. simpl.
  rewrite Hq. simpl. rewrite Hl, Hp. simpl. rewrite Hw. simpl.
  rewrite !lookup_insert_eq, <- app_assoc. repeat split; reflexivity.
Qed.

(** ** Delivery *)

(** C2.  In every state the program reaches, every write to a widget was
    made by the UI thread.  A turn of the worker writes no widget; what it
    does with a finished surface is to hand [assign] to the event loop
    with [after], and the event loop runs it on the UI thread, where the
    surface is put on the label. *)
Theorem worker_hands_surface_to_event_loop E th acts :
  let s := run E acts (ImageCacheLoader_init E th) in
  let s' := exec (_worker_iteration E) s in
  ui_only (writes s) ∧
  writes s' = writes s ∧ widgets s' = widgets s ∧ attr_image s' = attr_image s ∧
  (after_queue s' = after_queue s ∧ last_id s' = last_id s ∨
   after_queue s' = (after_queue s ++ [assign])%list ∧
   last_id s' = S (last_id s)) ∧
  (∀ item rest img bg,
     queue s = item :: rest →
     _fetch_image E s (rq_url item) = Ret (Some img) →
     compose E (theme s) img (rq_width item) (rq_height item) = Ret bg →
     let l := rq_target_label item in
     let photo := {| ph_name := S (last_id s); ph_image := bg |} in
     let s'' := exec mainloop_after s' in
     after_queue s' = (after_queue s ++ [assign])%list ∧
     var_target_label s' = Some l ∧ var_photo s' = Some photo ∧
     ui_only (writes s'') ∧
     (is_Some (widgets s !! l) →
      displayed s'' l = Some photo ∧
      writes s'' = (writes s ++ [W_configure UI l photo; W_attr UI l photo])%list)).
Proof.
  intros s s'.
  assert (Hs : ui_only (writes s)) by (apply run_writes; constructor).
  destruct (worker_iteration_frame E s) as (Hwid & Hattr & Hwr & _ & _).
  fold s' in Hwid, Hattr, Hwr.
  split; [exact Hs|]. do 3 (split; [assumption|]). split.
  - destruct (worker_iteration_cases E s)
      as [(_ & Ha & Hl)|(url & bg & _ & Ha & Hl)]; auto.
  - intros item rest img bg Hq Hf Hc l photo s''.
    destruct (worker_iteration_success E s item rest img bg Hq Hf Hc)
      as (_ & Ha & _ & _ & Hvl & Hvp).
    fold s' in Ha, Hvl, Hvp. fold photo in Hvp. fold l in Hvl.
    do 3 (split; [assumption|]). split.
    + assert (Hrun : s'' = run E (acts ++ [Worker_iteration; UI_mainloop_after])
                              (ImageCacheLoader_init E th))
        by (rewrite run_app; reflexivity).
      rewrite Hrun. apply run_writes. constructor.
    + intros Hlive. rewrite <- Hwid in Hlive.
      assert (Hhead : ∃ q, after_queue s' = assign :: q).
      { rewrite Ha. destruct (after_queue s) as [|[] q]; simpl; eauto. }
      destruct Hhead as [q Hhead].
      destruct (mainloop_after_assign s' q l photo Hhead Hvl Hvp Hlive)
        as (Hd & _ & Hw & _).
      fold s'' in Hd, Hw. rewrite Hwr in Hw. auto.
Qed.

Lemma worker_hands_surface_to_event_loop_witness :
  let s := run demo_env
             [UI_create_label 1%nat; UI_request "posters/a.png" 1%nat 140 210]
             demo_init in
  let s'' := exec mainloop_after (exec (_worker_iteration demo_env) s) in
  ph_name <$> displayed s'' 1%nat = Some 1%nat ∧
  Forall (λ w, write_thread w = UI) (writes s'').
Proof.
  intros s s''.
  destruct (worker_hands_surface_to_event_loop demo_env ThemeManager_init
              [UI_create_label 1%nat; UI_request "posters/a.png" 1%nat 140 210])
    as (_ & _ & _ & _ & _ & H).
  edestruct (H (request_item "posters/a.png" 1%nat 140 210) [] poster)
    as (_ & _ & _ & Hui & Hd);
    [reflexivity | reflexivity | reflexivity |].
  destruct Hd as [Hd _]; [vm_compute; eauto|].
  split; [|exact Hui].
  cbn [rq_target_label request_item] in Hd.
  unfold s'', s, demo_init. rewrite Hd. reflexivity.
Defined.

(** ** The cache *)

(** C9.  Storing a surface under a reference that is already in the cache
    replaces the entry: after a second successful composite the lookup
    gives the new surface, which is not the old one; the store is an
    insertion in every case and leaves the other entries alone. *)
Theorem cache_insert_last_write_wins E th acts item rest img bg :
  let s := run E acts (ImageCacheLoader_init E th) in
  let s' := exec (_worker_iteration E) s in
  let photo := {| ph_name := S (last_id s); ph_image := bg |} in
  queue s = item :: rest →
  _fetch_image E s (rq_url item) = Ret (Some img) →
  compose E (theme s) img (rq_width item) (rq_height item) = Ret bg →
  cache s' = <[rq_url item := photo]> (cache s) ∧
  cache s' !! rq_url item = Some photo ∧
  (∀ old, cache s !! rq_url item = Some old →
          old ≠ photo ∧ (ph_name old < ph_name photo)%nat) ∧
  (∀ k, k ≠ rq_url item → cache s' !! k = cache s !! k).
Proof.
  intros s s' photo Hq Hf Hc.
  destruct (worker_iteration_success E s item rest img bg Hq Hf Hc)
    as (Hcache & _).
  fold s' photo in Hcache. rewrite Hcache.
  split; [reflexivity|]. split; [apply lookup_insert_eq|]. split.
  - intros old Hold.
    assert (Hb : (ph_name old ≤ last_id s)%nat).
    { eapply (run_names_bounded E acts); [apply init_names_bounded|exact Hold]. }
    assert (Hlt : (ph_name old < ph_name photo)%nat) by (simpl; lia).
    split; [|exact Hlt]. intros ->. lia.
  - intros k Hk. apply lookup_insert_ne. congruence.
Qed.

Lemma cache_insert_last_write_wins_witness :
  let s := run demo_env
             [UI_request "posters/a.png" 1%nat 140 210;
              UI_request "posters/a.png" 2%nat 200 300; Worker_iteration]
             demo_init in
  let s' := exec (_worker_iteration demo_env) s in
  ph_name <$> cache s !! "posters/a.png" = Some 1%nat ∧
  ph_name <$> cache s' !! "posters/a.png" = Some 2%nat.
Proof.
  intros s s'. split; [vm_compute; reflexivity|].
  edestruct (cache_insert_last_write_wins demo_env ThemeManager_init
               [UI_request "posters/a.png" 1%nat 140 210;
                UI_request "posters/a.png" 2%nat 200 300; Worker_iteration]
               (request_item "posters/a.png" 2%nat 200 300) [] poster)
    as (_ & Hnew & _);
    [reflexivity | reflexivity | reflexivity |].
  cbn [rq_url request_item] in Hnew.
  unfold s', s, demo_init. rewrite Hnew. reflexivity.
Defined.

Lemma compose_filled E th img w h bg :
  compose E th img w h = Ret bg →
  ∃ bg_hex rgb rsz,
    ThemeManager_get th "card" = Ret bg_hex ∧ bg_rgb_of bg_hex = Ret rgb ∧
    ImageOps.contain_size (im_size img) (w, h) = Ret rsz ∧
    filled_with bg (w, h) rsz rgb.
Proof.
  intros H. destruct (compose_fill E th img w h bg H)
    as (bg_hex & r & g & b & rsz & px & Hg & Hb & Hs & Hl & Hf).
  exists bg_hex, (r, g, b), rsz. do 3 (split; [assumption|]).
  exists px. split; [exact Hl|]. intros x y _ _. apply Hf.
Qed.

(** Against C10 as stated: two requests for one reference are queued with
    different target sizes before the first completes; the surface a later
    hit delivers has the size of the second composite, not of the first
    completed one, and that second composite was made, at the new size,
    while the reference was in the cache. *)
Lemma cache_hit_not_first_completed :
  let url := "posters/a.png" in
  let s1 := run demo_env
              [UI_create_label 3%nat; UI_request url 1%nat 140 210;
               UI_request url 2%nat 200 300; Worker_iteration] demo_init in
  let s2 := step demo_env Worker_iteration s1 in
  let s3 := step demo_env (UI_request url 3%nat 140 210) s2 in
  ph_size <$> cache s1 !! url = Some (140, 210) ∧
  last_id s1 = 1%nat ∧ last_id s2 = 2%nat ∧
  ph_size <$> displayed s3 3%nat = Some (200, 300) ∧
  ph_size <$> displayed s3 3%nat ≠ ph_size <$> cache s1 !! url.
Proof.
  vm_compute. repeat split; try reflexivity. intros H. discriminate H.
Qed.

(** C10, amended.  The cache is keyed by the reference alone: on a hit,
    [request] applies the cached surface whatever width and height are
    asked for, so the surface delivered has the dimensions of the cache
    entry, which are the target size of the composite that last stored it;
    the hit leaves queue, cache and image counter as they were, so it
    starts no composite at the new size. *)
Theorem cache_hit_ignores_target_size t s url p l w h :
  cache s !! url = Some p →
  is_Some (widgets s !! l) →
  let s' := exec (request t url l w h) s in
  displayed s' l = Some p ∧
  (∀ w' h', exec (request t url l w' h') s = s') ∧
  queue s' = queue s ∧ cache s' = cache s ∧ last_id s' = last_id s ∧
  (∀ E s0 item rest img bg,
     s = exec (_worker_iteration E) s0 →
     queue s0 = item :: rest →
     rq_url item = url →
     _fetch_image E s0 (rq_url item) = Ret (Some img) →
     compose E (theme s0) img (rq_width item) (rq_height item) = Ret bg →
     ph_size p = (rq_width item, rq_height item)).
Proof.
  intros Hc Hw s'.
  destruct (request_hit t s url l w h p Hc Hw)
    as (_ & Hd & _ & _ & _ & Hq & _ & Hca & Hl & _).
  fold s' in Hd, Hq, Hca, Hl.
  split; [exact Hd|]. split.
  - intros w' h'. unfold s'. unfold_stmt. simpl. rewrite Hc.
    rewrite bool_decide_eq_true_2 by eauto. reflexivity.
  - do 3 (split; [assumption|]).
    intros E s0 item rest img bg -> Hq0 Hu Hf Hcomp.
    destruct (worker_iteration_success E s0 item rest img bg Hq0 Hf Hcomp)
      as (Hins & _).
    rewrite Hins, Hu, lookup_insert_eq in Hc. injection Hc as <-.
    unfold ph_size. simpl. eapply compose_size, Hcomp.
Qed.

Lemma cache_hit_ignores_target_size_witness :
  let s := run demo_env
             [UI_create_label 2%nat; UI_request "posters/a.png" 1%nat 140 210;
              Worker_iteration] demo_init in
  let s' := exec (request UI "posters/a.png" 2%nat 200 300) s in
  ph_size <$> displayed s' 2%nat = Some (140, 210) ∧ queue s' = [].
Proof.
  intros s s'.
  destruct (cache s !! "posters/a.png") as [p|] eqn:Hp;
    [|vm_compute in Hp; discriminate Hp].
  destruct (cache_hit_ignores_target_size UI s "posters/a.png" p 2%nat 200 300 Hp)
    as (Hd & _ & Hq & _); [vm_compute; eauto|].
  fold s' in Hd, Hq. rewrite Hd, Hq. split; [|reflexivity].
  assert (Hn : ph_size <$> cache s !! "posters/a.png" = Some (140, 210))
    by (vm_compute; reflexivity).
  rewrite Hp in Hn. exact Hn.
Defined.

(** ** Duplicate requests *)


(** Actions of the UI thread leave the fallback list as it is and only add
    to the queue. *)
Lemma step_ui_queue E a s :
  a ≠ Worker_iteration →
  fallback_paths (step E a s) = fallback_paths s ∧
  ∃ more, queue (step E a s) = (queue s ++ more)%list.
Proof.
  intros Ha. destruct a; simpl; try congruence;
    try (split; [reflexivity|exists []; rewrite app_nil_r; reflexivity]).
  - unfold_stmt. simpl. split_cases; simpl;
      (split; [reflexivity|]); eauto; exists []; rewrite app_nil_r; reflexivity.
  - unfold_stmt. simpl. split_cases; simpl;
      (split; [reflexivity|]); exists []; rewrite app_nil_r; reflexivity.
Qed.




(** ** The fallback list over a run *)

Lemma run_fallback_paths E acts s :
  fallback_paths (run E acts s) = fallback_paths s.
Proof.
  revert s. induction acts as [|a acts IH]; intros s; [reflexivity|].
  rewrite run_cons, IH.
  assert (a = Worker_iteration ∨ a ≠ Worker_iteration) as [->|Ha]
    by (destruct a; auto; right; discriminate).
  - simpl. destruct (worker_iteration_frame E s) as (_ & _ & _ & H & _). exact H.
  - apply (step_ui_queue E a s Ha).
Qed.

(** Past the entries that do not exist or do not open, the walk the
    specification asks for and the walk of the code part only on an entry
    that opens and does not decode. *)
Lemma first_existing_decodable_skip E pre rest :
  Forall (λ p, ∀ i, ¬ (os_path_exists E p = true ∧ Image_open E p = Ret i)) pre →
  first_existing_decodable E (pre ++ rest) = first_existing_decodable E rest.
Proof.
  induction 1 as [|p pre Hp _ IH]; [reflexivity|]. simpl.
  destruct (os_path_exists E p) eqn:Hex; [|exact IH].
  destruct (Image_open E p) as [i|e] eqn:Hop; [|exact IH].
  destruct (Hp i). auto.
Qed.

(** Against C3 as stated: the first fallback asset exists and opens, and
    its data are cut off; the second exists and decodes.  [_fetch_image]
    returns the first, not the first entry that exists and decodes, and
    the worker then drops the request when [convert] fails on it. *)
Lemma first_fallback_that_opens_need_not_decode :
  let url := "missing/path.png" in
  let s := ImageCacheLoader_init cut_off_env ThemeManager_init in
  fetch_network cut_off_env url = Ret None ∧
  os_path_exists cut_off_env url = false ∧
  fallback_paths s = ["/app/INF.png"; "/app/404.webp"] ∧
  first_existing_decodable cut_off_env (fallback_paths s) = Some placeholder ∧
  _fetch_image cut_off_env s url = Ret (Some truncated) ∧
  im_load truncated = Raise OSError ∧
  _fetch_image cut_off_env s url
  ≠ Ret (first_existing_decodable cut_off_env (fallback_paths s)) ∧
  cache (run cut_off_env [UI_request url 1%nat 140 210; Worker_iteration] s)
  = ∅.
Proof.
  vm_compute. repeat split; try reflexivity. intros H. discriminate H.
Qed.

(** C3, amended.  When the network step produces no image and the reference
    does not name an existing readable local file, [_fetch_image] returns
    the first entry of the fallback list that exists and that [Image.open]
    accepts, in the order of the list.  [Image.open] reads the header only:
    when the entry returned decodes as well, it is the first entry that
    exists and decodes.  No action of the program changes the list, so a
    repeated call in the same world, whatever the loader did meanwhile,
    returns the same entry. *)
Theorem fetch_image_first_fallback E self url (pre : list string) fp post img :
  no_image (fetch_network E url) →
  (∀ i, ¬ (os_path_exists E url = true ∧ Image_open E url = Ret i)) →
  fallback_paths self = (pre ++ fp :: post)%list →
  Forall (λ p, ∀ i, ¬ (os_path_exists E p = true ∧ Image_open E p = Ret i)) pre →
  os_path_exists E fp = true →
  Image_open E fp = Ret img →
  _fetch_image E self url = Ret (Some img) ∧
  (∀ acts, _fetch_image E (run E acts self) url = Ret (Some img)) ∧
  ((∃ px, im_load img = Ret px) →
   first_existing_decodable E (fallback_paths self) = Some img).
Proof.
  intros Hnet Hloc Hfps Hpre Hex Hop.
  assert (Hres : _fetch_image E self url = Ret (Some img)).
  { unfold _fetch_image.
    rewrite (try_except_no_image _ Hnet). simpl.
    rewrite (try_except_no_image _ (fetch_local_no_image _ _ Hloc)). simpl.
    rewrite Hfps. apply walk_fallbacks_first.
    + eapply Forall_impl; [exact Hpre|]. intros p Hp i Hi.
      apply fetch_fallback_spec in Hi. exact (Hp i Hi).
    + apply fetch_fallback_spec. auto. }
  split; [exact Hres|]. split.
  - intros acts. rewrite (fetch_image_self E self); [exact Hres|].
    apply run_fallback_paths.
  - intros [px Hpx]. rewrite Hfps, (first_existing_decodable_skip E pre _ Hpre).
    simpl. rewrite Hex, Hop, Hpx. reflexivity.
Qed.

Lemma fetch_image_first_fallback_witness :
  _fetch_image demo_env demo_init "missing/path.png" = Ret (Some placeholder) ∧
  (∀ acts, _fetch_image demo_env (run demo_env acts demo_init) "missing/path.png"
           = Ret (Some placeholder)) ∧
  ((∃ px, im_load placeholder = Ret px) →
   first_existing_decodable demo_env (fallback_paths demo_init) = Some placeholder).
Proof.
  apply (fetch_image_first_fallback demo_env demo_init "missing/path.png"
           ["/app/INF.png"] "/app/404.webp" [] placeholder).
  - intros img. discriminate.
  - intros i [H _]. discriminate H.
  - reflexivity.
  - constructor; [|constructor]. intros i [H _]. discriminate H.
  - reflexivity.
  - reflexivity.
Defined.

(** ** Scale to fit *)

Lemma py_round_cases n d :
  0 < d →
  (ImageOps.py_round n d = n / d ∧ 2 * (n mod d) ≤ d) ∨
  (ImageOps.py_round n d = n / d + 1 ∧ d ≤ 2 * (n mod d)).
Proof.
  intros Hd. unfold ImageOps.py_round.
  destruct (d <? 0) eqn:Hneg; [lia|].
  destruct (2 * (n mod d) <? d) eqn:H1; [left; split; [reflexivity|lia]|].
  destruct (d <? 2 * (n mod d)) eqn:H2; [right; split; [reflexivity|lia]|].
  destruct (Z.even (n / d)); [left|right]; split; try reflexivity; lia.
Qed.

(** [round(n / d)] is within a half of the quotient. *)
Lemma py_round_nearest n d :
  0 < d → 2 * Z.abs (ImageOps.py_round n d * d - n) ≤ d.
Proof.
  intros Hd. pose proof (Z.div_mod n d ltac:(lia)) as Hdm.
  pose proof (Z.mod_pos_bound n d Hd) as Hm.
  destruct (py_round_cases n d Hd) as [[-> H]|[-> H]]; lia.
Qed.

(** The rounded quotient does not pass an integer bound of the quotient. *)
Lemma py_round_le n d b :
  0 < d → n ≤ d * b → ImageOps.py_round n d ≤ b.
Proof.
  intros Hd Hn. pose proof (Z.div_mod n d ltac:(lia)) as Hdm.
  pose proof (Z.mod_pos_bound n d Hd) as Hm.
  destruct (py_round_cases n d Hd) as [[-> H]|[-> H]]; nia.
Qed.

Lemma py_round_nonneg n d : 0 < d → 0 ≤ n → 0 ≤ ImageOps.py_round n d.
Proof.
  intros Hd Hn. pose proof (Z.div_pos n d Hn Hd).
  destruct (py_round_cases n d Hd) as [[-> H0]|[-> H0]]; lia.
Qed.

(** C8.  For an image of size (w, h) and a target (W, H), all positive,
    the size of the scaled image lies within the target; the dimension
    that is larger relative to the target takes the full target bound and
    the other one is the proportional length rounded to the nearest
    integer, so it is at most its bound.  The image [contain] returns has
    that size. *)
Theorem contain_scaled_size_fits w h W H :
  0 < w → 0 < h → 0 < W → 0 < H →
  ∃ w' h',
    ImageOps.contain_size (w, h) (W, H) = Ret (w', h') ∧
    0 ≤ w' ≤ W ∧ 0 ≤ h' ≤ H ∧
    (h * W ≤ w * H → w' = W ∧ 2 * Z.abs (h' * w - h * W) ≤ w) ∧
    (w * H ≤ h * W → h' = H ∧ 2 * Z.abs (w' * h - w * H) ≤ h) ∧
    (∀ rs im r, im_size im = (w, h) →
                ImageOps.contain rs im (W, H) = Ret r → im_size r = (w', h')) ∧
    (∀ rs im px, im_size im = (w, h) → im_load im = Ret px →
                 1 ≤ w' → 1 ≤ h' →
                 ∃ r, ImageOps.contain rs im (W, H) = Ret r).
Proof.
  intros Hw Hh HW HH.
  assert (Hsz : ∃ w' h',
    ImageOps.contain_size (w, h) (W, H) = Ret (w', h') ∧
    0 ≤ w' ≤ W ∧ 0 ≤ h' ≤ H ∧
    (h * W ≤ w * H → w' = W ∧ 2 * Z.abs (h' * w - h * W) ≤ w) ∧
    (w * H ≤ h * W → h' = H ∧ 2 * Z.abs (w' * h - w * H) ≤ h)).
  { unfold ImageOps.contain_size, ImageOps.ratio_compare.
    destruct (h =? 0) eqn:E1; [lia|]. destruct (H =? 0) eqn:E2; [lia|].
    rewrite (proj2 (Z.sgn_pos_iff (h * H))) by nia.
    rewrite Z.mul_1_r.
    destruct (w * H - W * h ?= 0) eqn:Hcmp.
    - apply Z.compare_eq in Hcmp. exists W, H.
      split; [reflexivity|]. repeat split; lia.
    - rewrite Z.compare_lt_iff in Hcmp.
      pose proof (py_round_nearest (w * H) h Hh).
      pose proof (py_round_le (w * H) h W Hh ltac:(lia)).
      pose proof (py_round_nonneg (w * H) h Hh ltac:(nia)).
      exists (ImageOps.py_round (w * H) h), H.
      split; [reflexivity|]. repeat split; lia.
    - rewrite Z.compare_gt_iff in Hcmp.
      destruct (w =? 0) eqn:E3; [lia|].
      pose proof (py_round_nearest (h * W) w Hw).
      pose proof (py_round_le (h * W) w H Hw ltac:(lia)).
      pose proof (py_round_nonneg (h * W) w Hw ltac:(nia)).
      exists W, (ImageOps.py_round (h * W) w).
      split; [reflexivity|]. repeat split; lia. }
  destruct Hsz as (w' & h' & Hcs & Hbw & Hbh & Hwide & Htall).
  exists w', h'. do 5 (split; [assumption|]). split.
  - intros rs im r Him. unfold ImageOps.contain. rewrite Him, Hcs.
    unfold_res. unfold ImageOps.resize. unfold_res.
    destruct (im_load im) as [px|]; [|discriminate].
    destruct ((w' =? width im) && (h' =? height im)) eqn:Hsame; simpl in *;
      rewrite Hsame.
    + intros [= <-]. unfold width, height in Hsame. rewrite Him in Hsame.
      simpl in Hsame. rewrite Him. f_equal; lia.
    + destruct ((w' <? 1) || (h' <? 1)); [discriminate|].
      intros [= <-]. reflexivity.
  - intros rs im px Him Hld Hw1 Hh1. unfold ImageOps.contain.
    rewrite Him, Hcs. unfold_res. unfold ImageOps.resize. unfold_res.
    rewrite Hld. simpl.
    destruct ((w' =? width im) && (h' =? height im)); [eauto|].
    destruct ((w' <? 1) || (h' <? 1)) eqn:Hsmall; [|eauto].
    apply orb_true_iff in Hsmall. lia.
Qed.

Lemma contain_scaled_size_fits_witness :
  ∃ w' h',
    ImageOps.contain_size (600, 900) (140, 210) = Ret (w', h') ∧
    0 ≤ w' ≤ 140 ∧ 0 ≤ h' ≤ 210 ∧
    (900 * 140 ≤ 600 * 210 → w' = 140 ∧ 2 * Z.abs (h' * 600 - 900 * 140) ≤ 600) ∧
    (600 * 210 ≤ 900 * 140 → h' = 210 ∧ 2 * Z.abs (w' * 900 - 600 * 210) ≤ 900) ∧
    (∀ rs im r, im_size im = (600, 900) →
                ImageOps.contain rs im (140, 210) = Ret r → im_size r = (w', h')) ∧
    (∀ rs im px, im_size im = (600, 900) → im_load im = Ret px →
                 1 ≤ w' → 1 ≤ h' →
                 ∃ r, ImageOps.contain rs im (140, 210) = Ret r).
Proof. apply (contain_scaled_size_fits 600 900 140 210); lia. Defined.

(** * Further properties of the loader *)

(** ** The worker loop and the queue *)

Lemma fetch_image_returns E s url : ∃ r, _fetch_image E s url = Ret r.
Proof.
  unfold _fetch_image.
  destruct (fetch_network E url) as [[i|]|e]; simpl; eauto;
    (destruct (fetch_local E url) as [[i|]|e']; simpl; eauto;
     apply walk_fallbacks_total).
Qed.

(** A turn on a queue that is not empty, by outcome. *)
Lemma worker_iteration_head E s item rest :
  queue s = item :: rest →
  let s' := exec (_worker_iteration E) s in
  queue s' = rest ∧
  ((cache s' = cache s ∧ after_queue s' = after_queue s ∧ last_id s' = last_id s) ∨
   (∃ img bg,
      compose E (theme s) img (rq_width item) (rq_height item) = Ret bg ∧
      cache s' = <[rq_url item := {| ph_name := S (last_id s); ph_image := bg |}]> (cache s) ∧
      after_queue s' = (after_queue s ++ [assign])%list ∧
      last_id s' = S (last_id s))).
Proof.
  intros Hq s'.
  destruct (fetch_image_returns E s (rq_url item)) as [[img|] Hf].
  - destruct (compose E (theme s) img (rq_width item) (rq_height item))
      as [bg|e] eqn:Hc.
    + destruct (worker_iteration_success E s item rest img bg Hq Hf Hc)
        as (H1 & H2 & H3 & H4 & _).
      split; [exact H4|]. right. exists img, bg. auto.
    + destruct (worker_iteration_compose_raises E s item rest img e Hq Hf Hc)
        as (H1 & H2 & H3 & H4 & _).
      split; [exact H4|]. left. auto.
  - destruct (worker_iteration_absent E s item rest Hq Hf)
      as (H1 & H2 & H3 & H4 & _).
    split; [exact H4|]. left. auto.
Qed.

Lemma worker_iteration_queue E s :
  queue (exec (_worker_iteration E) s) = tail (queue s).
Proof.
  destruct (queue s) as [|item rest] eqn:Hq.
  - destruct (worker_iteration_empty E s Hq) as (_ & _ & _ & H & _). exact H.
  - destruct (worker_iteration_head E s item rest Hq) as [H _]. exact H.
Qed.

(** X1.  The worker takes the requests in the order they were queued and
    takes one per turn, whatever becomes of it (surface, no image, error
    while compositing): after n turns the queue is the old one without its
    first n requests; and no turn lets an exception out of the loop. *)
Theorem worker_drains_queue_in_order E n s :
  queue (run E (replicate n Worker_iteration) s) = drop n (queue s) ∧
  (_worker_iteration E (run E (replicate n Worker_iteration) s)).1 = Ret tt.
Proof.
  split; [|apply worker_iteration_returns].
  revert s. induction n as [|n IH]; intros s; [reflexivity|].
  simpl replicate. rewrite run_cons, IH. simpl step.
  rewrite worker_iteration_queue. destruct (queue s); [|reflexivity].
  simpl. apply drop_nil.
Qed.

Lemma run_invariant (P : State → Prop) E :
  (∀ a s, P s → P (step E a s)) → ∀ acts s, P s → P (run E acts s).
Proof.
  intros Hstep acts. induction acts as [|a acts IH]; intros s Hs; [exact Hs|].
  rewrite run_cons. apply IH, Hstep, Hs.
Qed.

(** The three parts of a turn, one after the other, are the turn. *)
Lemma three_parts_make_a_turn E s :
  worker_part E (worker_part E (worker_part E (s, Idle)))
  = (exec (_worker_iteration E) s, Idle).
Proof.
  unfold worker_part, _worker_after_get. unfold_stmt. simpl.
  destruct (queue s) as [|item rest]; simpl; [split_cases; reflexivity|].
  destruct (_fetch_image E _ (rq_url item)) as [[img|]|e]; simpl;
    [destruct (compose E _ img _ _); simpl| |]; split_cases; reflexivity.
Qed.

Lemma step_part_unfinished E p c :
  0 ≤ unfinished_tasks c.1 ≤ Z.of_nat (length (queue c.1)) + held c.2 →
  0 ≤ unfinished_tasks (step_part E p c).1
    ≤ Z.of_nat (length (queue (step_part E p c).1)) + held (step_part E p c).2.
Proof.
  destruct c as [s pc]. simpl. intros H. destruct p as [a|].
  - destruct a; simpl; try exact H.
    + unfold_stmt. simpl. split_cases; simpl; rewrite ?length_app; simpl; lia.
    + unfold_stmt. simpl. split_cases; simpl; lia.
  - destruct pc as [|[item|]|[|]]; simpl in *.
    + unfold Queue_get. destruct (queue s) as [|item rest] eqn:Hq; simpl in *; lia.
    + unfold _worker_after_get. unfold_stmt. simpl. split_cases; simpl; lia.
    + lia.
    + unfold_stmt. simpl. split_cases; simpl; lia.
    + unfold_stmt. simpl. split_cases; simpl; lia.
Qed.

Lemma run_parts_unfinished E ps c :
  0 ≤ unfinished_tasks c.1 ≤ Z.of_nat (length (queue c.1)) + held c.2 →
  0 ≤ unfinished_tasks (run_parts E ps c).1
    ≤ Z.of_nat (length (queue (run_parts E ps c).1)) + held (run_parts E ps c).2.
Proof.
  revert c. induction ps as [|p ps IH]; intros c H; [exact H|].
  simpl. apply IH, step_part_unfinished, H.
Qed.

(** X2.  Take a turn of the worker apart where it touches the queue (the
    call of [get], the rest of the [try] statement, the [finally] clause)
    and let actions of the UI thread fall between any two parts.  At every
    point of such a run the count of unfinished tasks is not negative and
    not above the number of requests waiting plus the one the worker holds
    (from [get] returning it to the end of the [finally] clause): so
    [task_done] is never counted below zero, also on the path that calls
    it twice for one request, and between two turns the count is at most
    the number of requests waiting.  The three parts, run one after the
    other, are one turn of the loop. *)
Theorem unfinished_tasks_bounded E th ps :
  let c := run_parts E ps (ImageCacheLoader_init E th, Idle) in
  0 ≤ unfinished_tasks c.1 ≤ Z.of_nat (length (queue c.1)) + held c.2 ∧
  (c.2 = Idle → unfinished_tasks c.1 ≤ Z.of_nat (length (queue c.1))) ∧
  ∀ s, step_part E Worker_part
         (step_part E Worker_part (step_part E Worker_part (s, Idle)))
       = (step E Worker_iteration s, Idle).
Proof.
  intros c.
  assert (H : 0 ≤ unfinished_tasks c.1 ≤ Z.of_nat (length (queue c.1)) + held c.2).
  { apply run_parts_unfinished. simpl. lia. }
  split; [exact H|]. split.
  - intros Hpc. rewrite Hpc in H. simpl in H. lia.
  - intros s. apply three_parts_make_a_turn.
Qed.

(** A request is made and the worker takes it from the queue: one task is
    unfinished while no request waits. *)
Lemma unfinished_tasks_bounded_witness :
  let c := run_parts demo_env
             [UI_part (UI_request "posters/a.png" 1%nat 140 210); Worker_part]
             (ImageCacheLoader_init demo_env ThemeManager_init, Idle) in
  queue c.1 = [] ∧ unfinished_tasks c.1 = 1 ∧ held c.2 = 1 ∧
  0 ≤ unfinished_tasks c.1 ≤ Z.of_nat (length (queue c.1)) + held c.2.
Proof.
  intros c. do 3 (split; [reflexivity|]).
  destruct (unfinished_tasks_bounded demo_env ThemeManager_init
              [UI_part (UI_request "posters/a.png" 1%nat 140 210); Worker_part])
    as [H _].
  exact H.
Defined.

(** ** The cache over a run *)

Lemma step_cache_grows E a s k :
  is_Some (cache s !! k) → is_Some (cache (step E a s) !! k).
Proof.
  intros Hk.
  assert (a = Worker_iteration ∨ a ≠ Worker_iteration) as [->|Ha]
    by (destruct a; auto; right; discriminate).
  - simpl. destruct (worker_iteration_cases E s)
      as [(Hc & _)|(url & bg & Hc & _)]; rewrite Hc; [exact Hk|].
    destruct (decide (url = k)) as [->|Hne].
    + rewrite lookup_insert_eq. eauto.
    + rewrite lookup_insert_ne by exact Hne. exact Hk.
  - destruct (step_ui_cache E a s Ha) as [-> _]. exact Hk.
Qed.

(** X3.  The cache never loses an entry: a reference that is in the cache
    stays in it through every run of requests, toggles, callbacks and
    worker turns. *)
Theorem cache_never_evicts E acts s k :
  is_Some (cache s !! k) → is_Some (cache (run E acts s) !! k).
Proof.
  apply (run_invariant (λ s, is_Some (cache s !! k))).
  intros a s0. apply step_cache_grows.
Qed.

Lemma cache_never_evicts_witness :
  is_Some (cache (run demo_env
                    [UI_toggle_theme; UI_request "nothing" 2%nat 140 210;
                     Worker_iteration; UI_mainloop_after]
                    (run demo_env [UI_request "posters/a.png" 1%nat 140 210;
                                   Worker_iteration] demo_init))
             !! "posters/a.png").
Proof.
  refine (cache_never_evicts demo_env
            [UI_toggle_theme; UI_request "nothing" 2%nat 140 210;
             Worker_iteration; UI_mainloop_after]
            (run demo_env [UI_request "posters/a.png" 1%nat 140 210;
                           Worker_iteration] demo_init)
            "posters/a.png" _).
  vm_compute. eauto.
Defined.

Lemma request_cases t s url l w h :
  let s' := exec (request t url l w h) s in
  cache s' = cache s ∧ last_id s' = last_id s ∧
  (queue s' = queue s ∨ queue s' = (queue s ++ [request_item url l w h])%list).
Proof. unfold_stmt. simpl. split_cases; auto. Qed.

Lemma mainloop_after_frame s :
  let s' := exec mainloop_after s in
  cache s' = cache s ∧ queue s' = queue s ∧ last_id s' = last_id s ∧
  unfinished_tasks s' = unfinished_tasks s ∧ theme s' = theme s ∧
  var_target_label s' = var_target_label s ∧ var_photo s' = var_photo s.
Proof. unfold_stmt. simpl. split_cases; auto 10. Qed.

Lemma requested_snoc acts a url w h :
  requested acts url w h → requested (acts ++ [a]) url w h.
Proof. intros [l Hl]. exists l. apply in_or_app. auto. Qed.

Lemma step_provenance E acts a s :
  provenance acts s → provenance (acts ++ [a]) (step E a s).
Proof.
  intros [Hq Hc].
  assert (Hq' : ∀ item, In item (queue s) →
            requested (acts ++ [a]) (rq_url item) (rq_width item) (rq_height item))
    by (intros item Hi; apply requested_snoc, Hq, Hi).
  assert (Hc' : ∀ k p, cache s !! k = Some p →
            ∃ w h, requested (acts ++ [a]) k w h ∧ ph_size p = (w, h)).
  { intros k p Hp. destruct (Hc k p Hp) as (w & h & Hr & Hs).
    exists w, h. split; [apply requested_snoc, Hr|exact Hs]. }
  destruct a as [url target_label w h| | | | |]; try (split; assumption).
  - simpl. destruct (request_cases UI s url target_label w h)
      as (Hca & _ & [Hqu|Hqu]); split; rewrite ?Hca, ?Hqu; try assumption.
    intros item Hi. apply in_app_or in Hi as [Hi|[<-|[]]]; [apply Hq', Hi|].
    exists target_label. apply in_or_app. right. left. reflexivity.
  - simpl. destruct (mainloop_after_frame s) as (Hca & Hqu & _).
    split; rewrite ?Hca, ?Hqu; assumption.
  - simpl. destruct (queue s) as [|item rest] eqn:Hqs.
    + destruct (worker_iteration_empty E s Hqs) as (Hca & _ & _ & Hqu & _).
      split; rewrite ?Hca, ?Hqu; [intros ? []|assumption].
    + destruct (worker_iteration_head E s item rest Hqs)
        as (Hqu & [(Hca & _)|(img & bg & Hcomp & Hca & _)]);
        split; rewrite ?Hca, ?Hqu;
        try (intros i Hi; apply Hq'; right; exact Hi); try assumption.
      intros k p. destruct (decide (rq_url item = k)) as [<-|Hne].
      * rewrite lookup_insert_eq. intros [= <-].
        exists (rq_width item), (rq_height item).
        split; [apply Hq'; left; reflexivity|].
        apply (compose_size E _ _ _ _ _ Hcomp).
      * rewrite lookup_insert_ne by exact Hne. apply Hc'.
Qed.

(** X4.  Every surface in the cache goes back to a call of [request]: in a
    run that starts with the fresh loader, a surface stored under a
    reference has the width and height of some request the run made for
    that reference. *)
Theorem cached_surface_has_a_requested_size E th acts k p :
  cache (run E acts (ImageCacheLoader_init E th)) !! k = Some p →
  ∃ l w h, In (UI_request k l w h) acts ∧ ph_size p = (w, h).
Proof.
  assert (Hinv : provenance acts (run E acts (ImageCacheLoader_init E th))).
  { induction acts as [|a acts IH] using rev_ind.
    - split; simpl; [intros ? []|]. intros ? ?. rewrite lookup_empty. discriminate.
    - rewrite run_app. apply step_provenance, IH. }
  intros Hp. destruct Hinv as [_ Hc].
  destruct (Hc k p Hp) as (w & h & [l Hl] & Hs). eauto.
Qed.

Lemma cached_surface_has_a_requested_size_witness :
  ∃ p l w h,
    cache (run demo_env [UI_request "posters/a.png" 1%nat 200 300;
                         Worker_iteration]
             (ImageCacheLoader_init demo_env ThemeManager_init))
      !! "posters/a.png" = Some p ∧
    In (UI_request "posters/a.png" l w h)
       [UI_request "posters/a.png" 1%nat 200 300; Worker_iteration] ∧
    ph_size p = (w, h).
Proof.
  destruct (cache (run demo_env [UI_request "posters/a.png" 1%nat 200 300;
                                 Worker_iteration]
                     (ImageCacheLoader_init demo_env ThemeManager_init))
              !! "posters/a.png")
    as [p|] eqn:Hp; [|vm_compute in Hp; discriminate Hp].
  destruct (cached_surface_has_a_requested_size demo_env ThemeManager_init
              [UI_request "posters/a.png" 1%nat 200 300; Worker_iteration]
              "posters/a.png" p Hp) as (l & w & h & Hin & Hsz).
  exists p, l, w, h. auto.
Defined.

Lemma step_names_distinct E a s :
  names_bounded s ∧ names_distinct s →
  names_bounded (step E a s) ∧ names_distinct (step E a s).
Proof.
  intros [Hb Hd]. split; [apply step_names_bounded, Hb|].
  assert (a = Worker_iteration ∨ a ≠ Worker_iteration) as [->|Ha]
    by (destruct a; auto; right; discriminate).
  - simpl. destruct (worker_iteration_cases E s)
      as [(Hc & _)|(url & bg & Hc & _)]; intros k1 k2 p1 p2; rewrite Hc.
    + apply Hd.
    + destruct (decide (url = k1)) as [E1|H1], (decide (url = k2)) as [E2|H2];
        subst; rewrite ?lookup_insert_eq, ?lookup_insert_ne by assumption.
      * reflexivity.
      * intros [= <-] Hp2 Hn. simpl in Hn. specialize (Hb k2 p2 Hp2). lia.
      * intros Hp1 [= <-] Hn. simpl in Hn. specialize (Hb k1 p1 Hp1). lia.
      * apply Hd.
  - destruct (step_ui_cache E a s Ha) as [Hc _].
    intros k1 k2 p1 p2. rewrite Hc. apply Hd.
Qed.

(** X5.  No two references share a surface: in every state the program
    reaches, the surfaces stored under two different references are two
    different [PhotoImage] objects. *)
Theorem references_never_share_a_surface E th acts k1 k2 p1 p2 :
  let s := run E acts (ImageCacheLoader_init E th) in
  cache s !! k1 = Some p1 → cache s !! k2 = Some p2 →
  k1 ≠ k2 → ph_name p1 ≠ ph_name p2 ∧ p1 ≠ p2.
Proof.
  intros s H1 H2 Hne.
  assert (Hinv : names_bounded s ∧ names_distinct s).
  { apply (run_invariant (λ s, names_bounded s ∧ names_distinct s)).
    - intros a s0. apply step_names_distinct.
    - split; [apply init_names_bounded|].
      intros ? ? ? ?. simpl. rewrite lookup_empty. discriminate. }
  destruct Hinv as [_ Hd].
  assert (Hn : ph_name p1 ≠ ph_name p2) by (intros Hn; apply Hne; eauto).
  split; [exact Hn|]. intros ->. apply Hn. reflexivity.
Qed.

Lemma references_never_share_a_surface_witness :
  let s := run demo_env
             [UI_request "posters/a.png" 1%nat 140 210;
              UI_request "https://good/img.jpg" 2%nat 140 210;
              Worker_iteration; Worker_iteration]
             (ImageCacheLoader_init demo_env ThemeManager_init) in
  ∃ p1 p2, cache s !! "posters/a.png" = Some p1 ∧
           cache s !! "https://good/img.jpg" = Some p2 ∧
           ph_name p1 ≠ ph_name p2.
Proof.
  intros s.
  destruct (cache s !! "posters/a.png") as [p1|] eqn:H1;
    [|vm_compute in H1; discriminate H1].
  destruct (cache s !! "https://good/img.jpg") as [p2|] eqn:H2;
    [|vm_compute in H2; discriminate H2].
  exists p1, p2. split; [reflexivity|]. split; [reflexivity|].
  apply (references_never_share_a_surface demo_env ThemeManager_init
           [UI_request "posters/a.png" 1%nat 140 210;
            UI_request "https://good/img.jpg" 2%nat 140 210;
            Worker_iteration; Worker_iteration]
           "posters/a.png" "https://good/img.jpg" p1 p2 H1 H2).
  discriminate.
Defined.

(** ** Destroyed labels *)

(** X6.  Delivering to a label that was destroyed meanwhile is silent: the
    event loop runs [assign], [configure] raises, the handler inside
    [assign] swallows the error, and no widget and no [.image] attribute is
    changed; the callback is used up. *)
Theorem assign_to_destroyed_label_is_silent s rest l p :
  after_queue s = assign :: rest →
  var_target_label s = Some l →
  var_photo s = Some p →
  widgets s !! l = None →
  let s' := exec mainloop_after s in
  (mainloop_after s).1 = Ret tt ∧
  widgets s' = widgets s ∧ attr_image s' = attr_image s ∧
  after_queue s' = rest ∧ cache s' = cache s ∧ queue s' = queue s ∧
  writes s' = (writes s ++ [W_configure UI l p])%list.
Proof.
  intros Hq Hl Hp Hw. unfold_stmt. simpl.
  rewrite Hq. simpl. rewrite Hl, Hp. simpl. rewrite Hw. simpl.
  repeat split; reflexivity.
Qed.

Lemma assign_to_destroyed_label_is_silent_witness :
  let s := run demo_env
             [UI_create_label 1%nat; UI_request "posters/a.png" 1%nat 140 210;
              Worker_iteration; UI_destroy_label 1%nat] demo_init in
  (mainloop_after s).1 = Ret tt ∧ widgets (exec mainloop_after s) = widgets s.
Proof.
  intros s.
  destruct (var_photo s) as [p|] eqn:Hp; [|vm_compute in Hp; discriminate Hp].
  destruct (assign_to_destroyed_label_is_silent s [] 1%nat p)
    as (H1 & H2 & _); [reflexivity | reflexivity | exact Hp | reflexivity |].
  split; assumption.
Defined.

(** X7.  A request for a cached reference whose destination is a destroyed
    label raises [TclError] to the caller; nothing is put on the queue and
    the [.image] attribute is not set. *)
Theorem request_hit_on_destroyed_label_raises t s url l w h p :
  cache s !! url = Some p →
  widgets s !! l = None →
  let s' := exec (request t url l w h) s in
  (request t url l w h s).1 = Raise TclError ∧
  queue s' = queue s ∧ unfinished_tasks s' = unfinished_tasks s ∧
  cache s' = cache s ∧ widgets s' = widgets s ∧ attr_image s' = attr_image s.
Proof.
  intros Hc Hw. unfold_stmt. simpl.
  rewrite Hc. rewrite bool_decide_eq_true_2 by eauto. simpl.
  rewrite Hc. simpl. rewrite Hw. simpl. repeat split; reflexivity.
Qed.

Lemma request_hit_on_destroyed_label_raises_witness :
  let s := run demo_env
             [UI_request "posters/a.png" 1%nat 140 210; Worker_iteration]
             demo_init in
  (request UI "posters/a.png" 7%nat 200 300 s).1 = Raise TclError ∧
  queue (exec (request UI "posters/a.png" 7%nat 200 300) s) = queue s.
Proof.
  intros s.
  destruct (cache s !! "posters/a.png") as [p|] eqn:Hp;
    [|vm_compute in Hp; discriminate Hp].
  destruct (request_hit_on_destroyed_label_raises UI s "posters/a.png" 7%nat
              200 300 p Hp) as (H1 & H2 & _); [reflexivity|].
  split; assumption.
Defined.

(** ** The resolver *)

Lemma walk_fallbacks_ext E1 E2 fps :
  os_path_exists E1 = os_path_exists E2 →
  Image_open E1 = Image_open E2 →
  walk_fallbacks E1 fps = walk_fallbacks E2 fps.
Proof.
  intros Hex Hop. induction fps as [|fp fps IH]; simpl; [reflexivity|].
  unfold fetch_fallback. rewrite Hex, Hop, IH. reflexivity.
Qed.

(** X8.  A reference that does not start with "http" (the empty one too)
    is resolved without the network: two worlds with the same files give
    the same result, whatever [requests.get] would answer. *)
Theorem non_http_reference_skips_network E1 E2 s1 s2 url :
  startswith url "http" = false →
  os_path_exists E1 = os_path_exists E2 →
  Image_open E1 = Image_open E2 →
  fallback_paths s1 = fallback_paths s2 →
  _fetch_image E1 s1 url = _fetch_image E2 s2 url.
Proof.
  intros Hh Hex Hop Hfp. unfold _fetch_image, fetch_network, fetch_local.
  rewrite Hh, andb_false_r, Hfp, Hex, Hop. simpl.
  rewrite (walk_fallbacks_ext E1 E2 _ Hex Hop). reflexivity.
Qed.

Lemma non_http_reference_skips_network_witness :
  _fetch_image demo_env demo_init "posters/a.png"
  = _fetch_image
      {| workspace_dir := workspace_dir demo_env;
         os_path_join := os_path_join demo_env;
         requests_get := λ _, Ret {| status_code := 200; content := "JFIF" |};
         Image_open_bytes := λ _, Ret placeholder;
         os_path_exists := os_path_exists demo_env;
         Image_open := Image_open demo_env;
         resample := resample demo_env;
         rounded_rectangle := rounded_rectangle demo_env |}
      demo_init "posters/a.png".
Proof.
  apply non_http_reference_skips_network; reflexivity.
Defined.

(** X9.  An http reference that the network answers with status 200 and an
    image that opens resolves to that image, whatever the disk holds; an
    answer with another status is not opened at all: the result is the
    same in a world that differs only in what [Image.open] makes of
    downloaded bytes. *)
Theorem network_image_has_priority E s url resp img :
  url ≠ "" → startswith url "http" = true →
  requests_get E url = Ret resp →
  (status_code resp = 200 →
   Image_open_bytes E (content resp) = Ret img →
   _fetch_image E s url = Ret (Some img)) ∧
  (status_code resp ≠ 200 →
   ∀ E', requests_get E' = requests_get E →
         os_path_exists E' = os_path_exists E →
         Image_open E' = Image_open E →
         _fetch_image E' s url = _fetch_image E s url).
Proof.
  intros Hne Hh Hg.
  assert (Ht : truthy url = true) by (destruct url; [congruence|reflexivity]).
  split.
  - intros Hs Hi. unfold _fetch_image, fetch_network.
    rewrite Ht, Hh. simpl. unfold_res. rewrite Hg, Hs. simpl. rewrite Hi. reflexivity.
  - intros Hs E' Hg' Hex Hop.
    unfold _fetch_image, fetch_network, fetch_local.
    rewrite Ht, Hh, Hg', Hex, Hop, (walk_fallbacks_ext E' E _ Hex Hop).
    simpl. unfold_res. rewrite Hg.
    apply Z.eqb_neq in Hs. rewrite Hs. reflexivity.
Qed.

Lemma network_image_has_priority_witness :
  _fetch_image demo_env demo_init "https://good/img.jpg" = Ret (Some poster).
Proof.
  refine (proj1 (network_image_has_priority demo_env demo_init
                   "https://good/img.jpg"
                   {| status_code := 200; content := "JFIF" |} poster _ _ _) _ _);
    [discriminate | reflexivity | reflexivity | reflexivity | reflexivity].
Defined.

(** ** The compositor *)

(** X10.  A surface the compositor returns has the target size, and its
    canvas shows the decoded card colour at every position that the scaled
    image, of the size [contain] gives it, does not cover; for a colour
    string without a leading [#] that colour is (24, 24, 24). *)
Theorem composited_surface_has_target_size_and_fill E th img w h bg :
  compose E th img w h = Ret bg →
  im_size bg = (w, h) ∧
  ∃ bg_hex rgb rsz,
    ThemeManager_get th "card" = Ret bg_hex ∧ bg_rgb_of bg_hex = Ret rgb ∧
    ImageOps.contain_size (im_size img) (w, h) = Ret rsz ∧
    filled_with bg (w, h) rsz rgb ∧
    (startswith bg_hex "#" = false → rgb = (24, 24, 24)).
Proof.
  intros H. split; [apply (compose_size E _ _ _ _ _ H)|].
  destruct (compose_filled E _ _ _ _ _ H) as (bg_hex & rgb & rsz & Hg & Hb & Hs & Hf).
  exists bg_hex, rgb, rsz. do 4 (split; [assumption|]).
  intros Hn. rewrite (bg_rgb_of_default _ Hn) in Hb. congruence.
Qed.

(** A 64 x 64 image on a 140 x 210 canvas: it is scaled to 140 x 140 and
    the corner (0, 0) of the canvas lies outside it and shows (24, 24, 24),
    the card colour of the dark theme. *)
Lemma composited_surface_has_target_size_and_fill_witness :
  ∃ bg px,
    compose demo_env ThemeManager_init placeholder 140 210 = Ret bg ∧
    im_size bg = (140, 210) ∧ im_load bg = Ret px ∧
    (pR (px 0 0), pG (px 0 0), pB (px 0 0)) = (24, 24, 24).
Proof.
  destruct (compose demo_env ThemeManager_init placeholder 140 210)
    as [bg|e] eqn:Hc; [|vm_compute in Hc; discriminate Hc].
  destruct (composited_surface_has_target_size_and_fill demo_env
              ThemeManager_init placeholder 140 210 bg Hc)
    as (Hsz & bg_hex & rgb & rsz & Hg & Hb & Hs & (px & Hl & Hf) & _).
  exists bg, px. do 3 (split; [reflexivity || assumption|]).
  injection Hg as <-. injection Hb as <-. injection Hs as <-.
  destruct (Hf 0 0) as (-> & -> & ->); [simpl; lia | simpl; lia | | reflexivity].
  vm_compute. intros [_ [H _]]. apply H. reflexivity.
Defined.

Lemma digit_value_facts c d :
  digit_value c = Some d →
  0 ≤ d < 16 ∧ Py_ISSPACE c = false ∧ is_char c "+" = false ∧
  is_char c "-" = false ∧ is_char c "_" = false ∧
  is_char c "x" = false ∧ is_char c "X" = false.
Proof.
  destruct c as [[] [] [] [] [] [] [] []]; vm_compute;
    intros H; try discriminate H; injection H as <-;
    repeat split; try reflexivity; discriminate.
Qed.

Lemma int16_two_digits c1 c2 d1 d2 :
  digit_value c1 = Some d1 → digit_value c2 = Some d2 →
  int16 (String c1 (String c2 "")) = Ret (16 * d1 + d2).
Proof.
  intros H1 H2.
  destruct (digit_value_facts c1 d1 H1) as (_ & Hs1 & Hp1 & Hm1 & Hu1 & _).
  destruct (digit_value_facts c2 d2 H2) as (_ & _ & _ & _ & Hu2 & Hx2 & HX2).
  unfold int16. cbn [skip_space]. rewrite Hs1.
  rewrite Hp1, Hm1. cbn [skip_prefix16]. rewrite Hx2, HX2.
  rewrite andb_false_r. rewrite Hu1.
  cbn [scan_digits]. rewrite Hu1, H1, Hu2, H2. cbn [skip_space].
  f_equal. lia.
Qed.

(** X11.  A colour string made of [#] and six hex digits (upper or lower
    case, with anything after them) decodes to the three byte values, each
    between 0 and 255, so that [Image.new] uses them as they are. *)
Theorem card_colour_hex_decodes c1 c2 c3 c4 c5 c6 d1 d2 d3 d4 d5 d6 rest :
  digit_value c1 = Some d1 → digit_value c2 = Some d2 →
  digit_value c3 = Some d3 → digit_value c4 = Some d4 →
  digit_value c5 = Some d5 → digit_value c6 = Some d6 →
  let bg_hex :=
    String "#" (String c1 (String c2 (String c3 (String c4
      (String c5 (String c6 rest)))))) in
  let r := 16 * d1 + d2 in
  let g := 16 * d3 + d4 in
  let b := 16 * d5 + d6 in
  bg_rgb_of bg_hex = Ret (r, g, b) ∧
  0 ≤ r ≤ 255 ∧ 0 ≤ g ≤ 255 ∧ 0 ≤ b ≤ 255 ∧
  CLIP8 r = r ∧ CLIP8 g = g ∧ CLIP8 b = b.
Proof.
  intros H1 H2 H3 H4 H5 H6 bg_hex r g b.
  pose proof (digit_value_facts _ _ H1) as (? & _).
  pose proof (digit_value_facts _ _ H2) as (? & _).
  pose proof (digit_value_facts _ _ H3) as (? & _).
  pose proof (digit_value_facts _ _ H4) as (? & _).
  pose proof (digit_value_facts _ _ H5) as (? & _).
  pose proof (digit_value_facts _ _ H6) as (? & _).
  split.
  - assert (Hs : startswith bg_hex "#" = true) by reflexivity.
    unfold bg_rgb_of. rewrite Hs. unfold bg_hex, slice2.
    cbn [String.substring].
    replace (String.substring 0 0 rest) with "" by (destruct rest; reflexivity).
    unfold_res.
    rewrite (int16_two_digits c1 c2 d1 d2 H1 H2).
    rewrite (int16_two_digits c3 c4 d3 d4 H3 H4).
    rewrite (int16_two_digits c5 c6 d5 d6 H5 H6). reflexivity.
  - unfold CLIP8, r, g, b. lia.
Qed.

Lemma card_colour_hex_decodes_witness :
  bg_rgb_of "#E50914ff" = Ret (229, 9, 20).
Proof.
  apply (card_colour_hex_decodes "E" "5" "0" "9" "1" "4" 14 5 0 9 1 4 "ff");
    reflexivity.
Defined.

(** ** The built-in themes *)

Lemma toggled_cases n :
  toggled n = if Nat.even n then ThemeManager_init
              else ThemeManager_toggle ThemeManager_init.
Proof.
  induction n as [|n IH]; [reflexivity|].
  change (toggled (S n)) with (ThemeManager_toggle (toggled n)). rewrite IH.
  rewrite Nat.even_succ, <- Nat.negb_even.
  destruct (Nat.even n); reflexivity.
Qed.

Lemma toggled_card_rgb n :
  (ThemeManager_get (toggled n) "card" ≫= bg_rgb_of) =
    Ret (if Nat.even n then (24, 24, 24) else (255, 255, 255)).
Proof. rewrite toggled_cases. destruct (Nat.even n); reflexivity. Qed.

Lemma get_from_palette th (pal : gmap string string) key :
  themes th !! current_theme th = Some pal →
  (∃ v, ThemeManager_get th key = Ret v) ↔ is_Some (pal !! key).
Proof.
  intros H. unfold ThemeManager_get. rewrite H.
  destruct (pal !! key) as [v|];
    split; intros [? Hv]; try discriminate Hv; eexists; reflexivity.
Qed.

(** X12.  However often the theme is toggled, it is "dark" after an even
    and "light" after an odd number of toggles, two toggles give the theme
    back, the card colour decodes (to (24, 24, 24) resp. (255, 255, 255)),
    and [get] returns for the nine keys of the palettes and raises
    [KeyError] for every other key. *)
Theorem builtin_themes_card_colour_decodes n :
  current_theme (toggled n) = (if Nat.even n then "dark" else "light") ∧
  ThemeManager_toggle (ThemeManager_toggle (toggled n)) = toggled n ∧
  (ThemeManager_get (toggled n) "card" ≫= bg_rgb_of) =
    Ret (if Nat.even n then (24, 24, 24) else (255, 255, 255)) ∧
  (∀ key, (∃ v, ThemeManager_get (toggled n) key = Ret v) ↔ In key palette_keys) ∧
  (∀ key, ¬ In key palette_keys →
          ThemeManager_get (toggled n) key = Raise KeyError).
Proof.
  assert (Hkeys : ∀ key, is_Some (dark_palette !! key) ↔ In key palette_keys).
  { intros key. split.
    - intros [v Hv]. unfold dark_palette in Hv.
      apply elem_of_list_to_map_2 in Hv. rewrite list_elem_of_In in Hv.
      simpl in Hv. simpl.
      repeat (destruct Hv as [Hv|Hv]; [injection Hv as <- _; tauto|]).
      destruct Hv.
    - simpl. intros H.
      repeat (destruct H as [<-|H]; [vm_compute; eauto|]). destruct H. }
  assert (Hkeys' : ∀ key, is_Some (light_palette !! key) ↔ In key palette_keys).
  { intros key. split.
    - intros [v Hv]. unfold light_palette in Hv.
      apply elem_of_list_to_map_2 in Hv. rewrite list_elem_of_In in Hv.
      simpl in Hv. simpl.
      repeat (destruct Hv as [Hv|Hv]; [injection Hv as <- _; tauto|]).
      destruct Hv.
    - simpl. intros H.
      repeat (destruct H as [<-|H]; [vm_compute; eauto|]). destruct H. }
  assert (Hget : ∀ key, (∃ v, ThemeManager_get (toggled n) key = Ret v)
                        ↔ In key palette_keys).
  { intros key. rewrite toggled_cases. destruct (Nat.even n).
    - etransitivity; [apply (get_from_palette _ dark_palette); reflexivity|].
      apply Hkeys.
    - etransitivity; [apply (get_from_palette _ light_palette); reflexivity|].
      apply Hkeys'. }
  split; [rewrite toggled_cases; destruct (Nat.even n); reflexivity|].
  split; [rewrite toggled_cases; destruct (Nat.even n); reflexivity|].
  split; [apply toggled_card_rgb|]. split; [exact Hget|].
  intros key Hnot.
  destruct (ThemeManager_get (toggled n) key) as [v|e] eqn:Hk.
  - exfalso. apply Hnot, Hget. eauto.
  - unfold ThemeManager_get in Hk.
    destruct (themes (toggled n) !! current_theme (toggled n)) as [pal|];
      [destruct (pal !! key)|]; congruence.
Qed.

Lemma step_theme E a s :
  theme (step E a s) =
    match a with
    | UI_toggle_theme => ThemeManager_toggle (theme s)
    | _ => theme s
    end.
Proof.
  destruct a; try reflexivity.
  - simpl. unfold_stmt. simpl. split_cases; reflexivity.
  - simpl. apply mainloop_after_frame.
  - simpl. apply worker_iteration_frame.
Qed.

Lemma toggles_snoc acts a :
  toggles (acts ++ [a]) =
    match a with UI_toggle_theme => S (toggles acts) | _ => toggles acts end.
Proof.
  induction acts as [|b acts IH]; [destruct a; reflexivity|].
  simpl app. destruct b; simpl; rewrite IH; destruct a; reflexivity.
Qed.

Lemma run_theme E acts :
  theme (run E acts (ImageCacheLoader_init E ThemeManager_init))
  = toggled (toggles acts).
Proof.
  induction acts as [|a acts IH] using rev_ind; [reflexivity|].
  rewrite run_app. simpl run. rewrite step_theme, IH, toggles_snoc.
  destruct a; reflexivity.
Qed.

(** When every other step succeeds, a card colour that decodes gives a
    surface of the target size whose canvas shows that colour around the
    scaled image. *)
Lemma compose_returns E th img rgbim resized w h bg_hex rgb base :
  convert_RGB img = Ret rgbim →
  ImageOps.contain (resample E) rgbim (w, h) = Ret resized →
  ThemeManager_get th "card" = Ret bg_hex →
  bg_rgb_of bg_hex = Ret rgb →
  new_RGB (w, h) rgb = Ret base →
  ∃ bg, compose E th img w h = Ret bg ∧ im_size bg = (w, h) ∧
        filled_with bg (w, h) (im_size resized) rgb.
Proof.
  intros Hconv Hcont Hget Hrgb Hnew.
  assert (Hc : ∃ bg, compose E th img w h = Ret bg).
  { unfold compose. unfold_res. rewrite Hconv, Hcont, Hget, Hrgb, Hnew. eauto. }
  destruct Hc as [bg Hc]. exists bg. split; [exact Hc|].
  split; [apply (compose_size E _ _ _ _ _ Hc)|].
  destruct (compose_filled E _ _ _ _ _ Hc) as (hex & rgb' & rsz & Hg & Hb & Hs & Hf).
  rewrite Hget in Hg. injection Hg as <-. rewrite Hrgb in Hb. injection Hb as <-.
  pose proof (contain_result_size _ _ _ _ Hcont) as Hrsz.
  rewrite (convert_RGB_size _ _ Hconv), Hs in Hrsz. injection Hrsz as <-.
  exact Hf.
Qed.

Lemma reachable_card_colour E acts :
  let s := run E acts (ImageCacheLoader_init E ThemeManager_init) in
  ∃ bg_hex,
    ThemeManager_get (theme s) "card" = Ret bg_hex ∧
    bg_rgb_of bg_hex =
      Ret (if Nat.even (toggles acts) then (24, 24, 24) else (255, 255, 255)).
Proof.
  intros s. unfold s. rewrite run_theme.
  pose proof (toggled_card_rgb (toggles acts)) as Hcard.
  destruct (ThemeManager_get (toggled (toggles acts)) "card") as [hex|];
    [|discriminate Hcard].
  exists hex. split; [reflexivity|exact Hcard].
Qed.

(** X13.  With the built-in themes no request is dropped because of the
    colour: in every state reached from the fresh loader, an image that
    converts and scales, for a target size of which [Image.new] makes a
    canvas, is composited, and the canvas shows, around the scaled image,
    the card colour of the theme the toggles so far have led to. *)
Theorem builtin_themes_never_drop_a_request E acts img rgbim resized w h base :
  let s := run E acts (ImageCacheLoader_init E ThemeManager_init) in
  let rgb := if Nat.even (toggles acts) then (24, 24, 24) else (255, 255, 255) in
  convert_RGB img = Ret rgbim →
  ImageOps.contain (resample E) rgbim (w, h) = Ret resized →
  new_RGB (w, h) rgb = Ret base →
  ∃ bg,
    compose E (theme s) img w h = Ret bg ∧ im_size bg = (w, h) ∧
    filled_with bg (w, h) (im_size resized) rgb.
Proof.
  intros s rgb Hconv Hcont Hnew.
  destruct (reachable_card_colour E acts) as (hex & Hget & Hrgb).
  exact (compose_returns E _ _ _ _ _ _ _ _ _ Hconv Hcont Hget Hrgb Hnew).
Qed.

(** After one toggle a 64 x 64 image is composited on a 140 x 210 canvas
    whose corner shows the card colour of the light theme. *)
Lemma builtin_themes_never_drop_a_request_witness :
  ∃ bg px,
    compose demo_env
      (theme (run demo_env [UI_toggle_theme]
                (ImageCacheLoader_init demo_env ThemeManager_init)))
      placeholder 140 210 = Ret bg ∧
    im_load bg = Ret px ∧
    (pR (px 0 0), pG (px 0 0), pB (px 0 0)) = (255, 255, 255).
Proof.
  pose proof (λ a b c, builtin_themes_never_drop_a_request demo_env
                         [UI_toggle_theme] placeholder a b 140 210 c) as H.
  edestruct H as (bg & H1 & _ & (px & Hl & Hf));
    [reflexivity | reflexivity | reflexivity |].
  exists bg, px. do 2 (split; [assumption|]).
  destruct (Hf 0 0) as (-> & -> & ->); [simpl; lia | simpl; lia | | reflexivity].
  vm_compute. intros [_ [H0 _]]. apply H0. reflexivity.
Defined.



(** ** The mask and the position of the image *)

(** The canvas before the mask. *)
Lemma compose_canvas E th img w h bg :
  compose E th img w h = Ret bg →
  ∃ canvas cpx,
    im_mode canvas = RGB ∧ im_size canvas = (w, h) ∧ im_load canvas = Ret cpx ∧
    bg = round_corners E canvas (w, h) ∧
    ∀ E', resample E' = resample E →
          compose E' th img w h = Ret (round_corners E' canvas (w, h)).
Proof.
  intros H. apply compose_inv in H
    as (rgb & resized & bg_hex & color & base & Hconv & Hc & Hg & Hb & Hn & ->).
  pose proof Hn as Hn0. apply new_RGB_inv in Hn as [Hsz Hld].
  assert (Hmode : im_mode base = RGB).
  { destruct color as [[r g] b]. unfold new_RGB in Hn0.
    repeat case_match; try discriminate. injection Hn0 as <-. reflexivity. }
  pose proof Hc as Hc0. unfold ImageOps.contain in Hc. unfold_res.
  destruct (ImageOps.contain_size _ _) as [size'|]; [|discriminate].
  apply resize_loaded in Hc as [spx Hspx].
  set (canvas := paste base resized (paste_pos_of (w, h) (im_size resized))).
  assert (Hload : ∃ cpx, im_load canvas = Ret cpx).
  { unfold canvas, paste. destruct (paste_pos_of (w, h) (im_size resized)).
    simpl. rewrite Hld, Hspx. unfold_res. eauto. }
  destruct Hload as [cpx Hload].
  exists canvas, cpx. split; [|split; [|split; [exact Hload|split; [reflexivity|]]]].
  - unfold canvas. destruct (paste_pos_of (w, h) (im_size resized)). exact Hmode.
  - unfold canvas. rewrite paste_size. exact Hsz.
  - intros E' Hrs. unfold compose. unfold_res.
    rewrite Hconv, Hrs, Hc0, Hg, Hb, Hn0. reflexivity.
Qed.

(** X14.  The rounded mask cannot make compositing fail: where one world
    composites a surface, a world with the same resampling and any other
    outcome of the drawing primitive composites one too, of the same size
    and with the same colours; when the primitive raises, the surface is
    the unmasked RGB canvas, and when it returns, the mask is the alpha
    channel. *)
Theorem mask_failure_is_not_fatal E E' th img w h bg :
  resample E' = resample E →
  compose E th img w h = Ret bg →
  ∃ bg' px px',
    compose E' th img w h = Ret bg' ∧
    im_size bg' = im_size bg ∧
    im_load bg = Ret px ∧ im_load bg' = Ret px' ∧
    (∀ x y, pR (px' x y) = pR (px x y) ∧ pG (px' x y) = pG (px x y) ∧
            pB (px' x y) = pB (px x y)) ∧
    (∀ e, rounded_rectangle E' (w, h) 12 = Raise e → im_mode bg' = RGB) ∧
    (∀ mask, rounded_rectangle E' (w, h) 12 = Ret mask →
             im_mode bg' = RGBA ∧ ∀ x y, pA (px' x y) = mask x y).
Proof.
  intros Hrs Hc.
  destruct (compose_canvas E th img w h bg Hc)
    as (canvas & cpx & Hmode & Hsz & Hload & -> & Hother).
  exists (round_corners E' canvas (w, h)).
  assert (Hrc : ∀ E0, ∃ px0,
            im_load (round_corners E0 canvas (w, h)) = Ret px0 ∧
            (∀ x y, pR (px0 x y) = pR (cpx x y) ∧ pG (px0 x y) = pG (cpx x y) ∧
                    pB (px0 x y) = pB (cpx x y)) ∧
            (∀ e, rounded_rectangle E0 (w, h) 12 = Raise e →
                  im_mode (round_corners E0 canvas (w, h)) = RGB) ∧
            (∀ mask, rounded_rectangle E0 (w, h) 12 = Ret mask →
                  im_mode (round_corners E0 canvas (w, h)) = RGBA ∧
                  ∀ x y, pA (px0 x y) = mask x y)).
  { intros E0. unfold round_corners.
    destruct (rounded_rectangle E0 (w, h) 12) as [mask|e0].
    - eexists. split; [apply putalpha_load, Hload|].
      split; [intros x y; simpl; auto|]. split; [discriminate|].
      intros mask' [= <-]. split; [reflexivity|]. intros x y. reflexivity.
    - exists cpx. split; [exact Hload|]. split; [auto|].
      split; [intros _ _; exact Hmode|discriminate]. }
  destruct (Hrc E) as (px & Hpx & Hrgb & _).
  destruct (Hrc E') as (px' & Hpx' & Hrgb' & Hfail & Hok).
  exists px, px'. split; [apply Hother, Hrs|].
  split; [rewrite !round_corners_size; reflexivity|].
  split; [exact Hpx|]. split; [exact Hpx'|]. split; [|split; assumption].
  intros x y. destruct (Hrgb x y) as (-> & -> & ->).
  destruct (Hrgb' x y) as (-> & -> & ->). auto.
Qed.

Lemma mask_failure_is_not_fatal_witness :
  ∃ bg', compose
           {| workspace_dir := workspace_dir demo_env;
              os_path_join := os_path_join demo_env;
              requests_get := requests_get demo_env;
              Image_open_bytes := Image_open_bytes demo_env;
              os_path_exists := os_path_exists demo_env;
              Image_open := Image_open demo_env;
              resample := resample demo_env;
              rounded_rectangle := λ _ _, Raise AttributeError |}
           ThemeManager_init poster 140 210 = Ret bg' ∧
         im_mode bg' = RGB.
Proof.
  edestruct (mask_failure_is_not_fatal demo_env
               {| workspace_dir := workspace_dir demo_env;
                  os_path_join := os_path_join demo_env;
                  requests_get := requests_get demo_env;
                  Image_open_bytes := Image_open_bytes demo_env;
                  os_path_exists := os_path_exists demo_env;
                  Image_open := Image_open demo_env;
                  resample := resample demo_env;
                  rounded_rectangle := λ _ _, Raise AttributeError |}
               ThemeManager_init poster 140 210)
    as (bg' & px & px' & H1 & _ & _ & _ & _ & Hraise & _);
    [reflexivity | reflexivity |].
  exists bg'. split; [exact H1|]. apply (Hraise AttributeError). reflexivity.
Defined.

(** X15.  For positive sizes the scaled image is pasted inside the canvas:
    the offsets are not negative, the box ends within the target, the
    margins of a side differ by at most one pixel (the smaller one left
    and on top), and the image touches the canvas on at least one axis. *)
Theorem scaled_image_is_centred_inside_canvas w h W H :
  0 < w → 0 < h → 0 < W → 0 < H →
  ∃ rw rh x0 y0,
    ImageOps.contain_size (w, h) (W, H) = Ret (rw, rh) ∧
    paste_pos_of (W, H) (rw, rh) = (x0, y0) ∧
    0 ≤ x0 ∧ x0 + rw ≤ W ∧ 0 ≤ y0 ∧ y0 + rh ≤ H ∧
    0 ≤ (W - (x0 + rw)) - x0 ≤ 1 ∧ 0 ≤ (H - (y0 + rh)) - y0 ≤ 1 ∧
    (x0 = 0 ∨ y0 = 0).
Proof.
  intros Hw Hh HW HH.
  assert (Hcs : ∃ rw rh, ImageOps.contain_size (w, h) (W, H) = Ret (rw, rh) ∧
                         0 ≤ rw ≤ W ∧ 0 ≤ rh ≤ H ∧ (rw = W ∨ rh = H)).
  { unfold ImageOps.contain_size, ImageOps.ratio_compare.
    destruct (h =? 0) eqn:E1; [lia|]. destruct (H =? 0) eqn:E2; [lia|].
    rewrite (proj2 (Z.sgn_pos_iff (h * H))) by nia.
    rewrite Z.mul_1_r.
    destruct (w * H - W * h ?= 0) eqn:Hcmp.
    - exists W, H. split; [reflexivity|]. lia.
    - rewrite Z.compare_lt_iff in Hcmp.
      pose proof (py_round_le (w * H) h W Hh ltac:(lia)).
      pose proof (py_round_nonneg (w * H) h Hh ltac:(nia)).
      eexists _, H. split; [reflexivity|]. lia.
    - rewrite Z.compare_gt_iff in Hcmp.
      destruct (w =? 0) eqn:E3; [lia|].
      pose proof (py_round_le (h * W) w H Hw ltac:(lia)).
      pose proof (py_round_nonneg (h * W) w Hw ltac:(nia)).
      eexists W, _. split; [reflexivity|]. lia. }
  destruct Hcs as (rw & rh & Hcs & Hrw & Hrh & Htouch).
  exists rw, rh, ((W - rw) / 2), ((H - rh) / 2).
  split; [exact Hcs|]. split; [reflexivity|].
  pose proof (Z.div_mod (W - rw) 2 ltac:(lia)).
  pose proof (Z.mod_pos_bound (W - rw) 2 ltac:(lia)).
  pose proof (Z.div_mod (H - rh) 2 ltac:(lia)).
  pose proof (Z.mod_pos_bound (H - rh) 2 ltac:(lia)).
  assert (rw = W → (W - rw) / 2 = 0) by (intros ->; rewrite Z.sub_diag; reflexivity).
  assert (rh = H → (H - rh) / 2 = 0) by (intros ->; rewrite Z.sub_diag; reflexivity).
  repeat split; lia.
Qed.

Lemma scaled_image_is_centred_inside_canvas_witness :
  ∃ rw rh x0 y0,
    ImageOps.contain_size (64, 64) (140, 210) = Ret (rw, rh) ∧
    paste_pos_of (140, 210) (rw, rh) = (x0, y0) ∧
    0 ≤ x0 ∧ x0 + rw ≤ 140 ∧ 0 ≤ y0 ∧ y0 + rh ≤ 210 ∧
    0 ≤ (140 - (x0 + rw)) - x0 ≤ 1 ∧ 0 ≤ (210 - (y0 + rh)) - y0 ≤ 1 ∧
    (x0 = 0 ∨ y0 = 0).
Proof. apply (scaled_image_is_centred_inside_canvas 64 64 140 210); lia. Defined.

(** ** Deliveries that wait in the event loop *)

(** X16.  [assign] reads [target_label] and [photo] when it runs.  When
    the worker has composited two requests before the event loop runs
    their callbacks, both callbacks put the second surface on the second
    label, and the label of the first request receives nothing. *)
Theorem queued_deliveries_all_go_to_the_last_label E s i1 i2 rest img1 img2 bg1 bg2 :
  queue s = i1 :: i2 :: rest →
  after_queue s = [] →
  _fetch_image E s (rq_url i1) = Ret (Some img1) →
  _fetch_image E s (rq_url i2) = Ret (Some img2) →
  compose E (theme s) img1 (rq_width i1) (rq_height i1) = Ret bg1 →
  compose E (theme s) img2 (rq_width i2) (rq_height i2) = Ret bg2 →
  rq_target_label i1 ≠ rq_target_label i2 →
  is_Some (widgets s !! rq_target_label i2) →
  let p2 := {| ph_name := S (S (last_id s)); ph_image := bg2 |} in
  let s2 := run E [Worker_iteration; Worker_iteration] s in
  let s4 := run E [UI_mainloop_after; UI_mainloop_after] s2 in
  after_queue s2 = [assign; assign] ∧
  after_queue s4 = [] ∧
  displayed s4 (rq_target_label i2) = Some p2 ∧
  widgets s4 !! rq_target_label i1 = widgets s !! rq_target_label i1 ∧
  attr_image s4 !! rq_target_label i1 = attr_image s !! rq_target_label i1 ∧
  writes s4 =
    (writes s ++ [W_configure UI (rq_target_label i2) p2;
                  W_attr UI (rq_target_label i2) p2;
                  W_configure UI (rq_target_label i2) p2;
                  W_attr UI (rq_target_label i2) p2])%list.
Proof.
  intros Hq Ha Hf1 Hf2 Hc1 Hc2 Hne Hlive p2 s2 s4.
  set (s1 := exec (_worker_iteration E) s).
  destruct (worker_iteration_success E s i1 (i2 :: rest) img1 bg1 Hq Hf1 Hc1)
    as (_ & Ha1 & Hl1 & Hq1 & _).
  destruct (worker_iteration_frame E s) as (Hw1 & Hat1 & Hwr1 & Hfp1 & Hth1).
  fold s1 in Ha1, Hl1, Hq1, Hw1, Hat1, Hwr1, Hfp1, Hth1.
  assert (Hf2' : _fetch_image E s1 (rq_url i2) = Ret (Some img2))
    by (rewrite (fetch_image_self E s) by exact Hfp1; exact Hf2).
  assert (Hc2' : compose E (theme s1) img2 (rq_width i2) (rq_height i2) = Ret bg2)
    by (rewrite Hth1; exact Hc2).
  destruct (worker_iteration_success E s1 i2 rest img2 bg2 Hq1 Hf2' Hc2')
    as (_ & Ha2 & _ & _ & Hvl2 & Hvp2).
  destruct (worker_iteration_frame E s1) as (Hw2 & Hat2 & Hwr2 & _).
  change (exec (_worker_iteration E) s1) with s2 in *.
  rewrite Hl1 in Hvp2. fold p2 in Hvp2.
  rewrite Ha1, Ha in Ha2. simpl in Ha2.
  assert (Hlive2 : is_Some (widgets s2 !! rq_target_label i2))
    by (rewrite Hw2, Hw1; exact Hlive).
  set (s3 := exec mainloop_after s2).
  destruct (mainloop_after_assign s2 [assign] _ p2 Ha2 Hvl2 Hvp2 Hlive2)
    as (Hd3 & Hat3 & Hwr3 & Ha3 & _).
  fold s3 in Hd3, Hat3, Hwr3, Ha3.
  destruct (mainloop_after_frame s2) as (_ & _ & _ & _ & _ & Hvl3 & Hvp3).
  fold s3 in Hvl3, Hvp3. rewrite Hvl2 in Hvl3. rewrite Hvp2 in Hvp3.
  assert (Hlive3 : is_Some (widgets s3 !! rq_target_label i2)).
  { unfold displayed in Hd3. destruct (widgets s3 !! rq_target_label i2); eauto.
    discriminate. }
  destruct (mainloop_after_assign s3 [] _ p2 Ha3 Hvl3 Hvp3 Hlive3)
    as (Hd4 & _ & Hwr4 & Ha4 & _).
  change (exec mainloop_after s3) with s4 in *.
  split; [exact Ha2|]. split; [exact Ha4|]. split; [exact Hd4|].
  assert (Hother : ∀ s0 l p, var_target_label s0 = Some l → var_photo s0 = Some p →
            ∀ l', l' ≠ l →
            widgets (exec mainloop_after s0) !! l' = widgets s0 !! l' ∧
            attr_image (exec mainloop_after s0) !! l' = attr_image s0 !! l').
  { intros s0 l p Hl Hp l' Hl'. unfold_stmt. simpl.
    destruct (after_queue s0) as [|[] q]; simpl; [auto|].
    rewrite Hl, Hp. simpl.
    destruct (widgets s0 !! l); simpl; rewrite ?lookup_insert_ne by congruence; auto. }
  destruct (Hother s2 _ p2 Hvl2 Hvp2 (rq_target_label i1) Hne) as [Hx1 Hy1].
  destruct (Hother s3 _ p2 Hvl3 Hvp3 (rq_target_label i1) Hne) as [Hx2 Hy2].
  fold s3 in Hx1, Hy1. change (exec mainloop_after s3) with s4 in *.
  split; [rewrite Hx2, Hx1, Hw2, Hw1; reflexivity|].
  split; [rewrite Hy2, Hy1, Hat2, Hat1; reflexivity|].
  rewrite Hwr4, Hwr3, Hwr2, Hwr1, <- app_assoc. reflexivity.
Qed.

Lemma queued_deliveries_all_go_to_the_last_label_witness :
  let s := run demo_env
             [UI_create_label 1%nat; UI_create_label 2%nat;
              UI_request "posters/a.png" 1%nat 140 210;
              UI_request "https://good/img.jpg" 2%nat 140 210]
             (ImageCacheLoader_init demo_env ThemeManager_init) in
  let s4 := run demo_env [UI_mainloop_after; UI_mainloop_after]
              (run demo_env [Worker_iteration; Worker_iteration] s) in
  ph_name <$> displayed s4 2%nat = Some 2%nat ∧
  widgets s4 !! 1%nat = widgets s !! 1%nat.
Proof.
  intros s s4.
  pose proof (λ b1 b2, queued_deliveries_all_go_to_the_last_label demo_env s
                (request_item "posters/a.png" 1%nat 140 210)
                (request_item "https://good/img.jpg" 2%nat 140 210)
                [] poster poster b1 b2) as H.
  edestruct H as (_ & _ & Hd & Hw & _);
    [reflexivity | reflexivity | reflexivity | reflexivity
    | reflexivity | reflexivity | discriminate | vm_compute; eauto |].
  cbn [rq_target_label request_item] in Hd, Hw.
  fold s4 in Hd, Hw. rewrite Hd. split; [reflexivity|exact Hw].
Defined.

(** * Properties of the data manager *)

(** ** Strings *)

Lemma lstrip_idem s : lstrip (lstrip s) = lstrip s.
Proof.
  induction s as [|c s IH]; [reflexivity|]. simpl.
  destruct (isspace c) eqn:Hc; [exact IH|]. simpl. rewrite Hc. reflexivity.
Qed.

Lemma strip_lstrip s : strip (lstrip s) = strip s.
Proof. unfold strip. rewrite lstrip_idem. reflexivity. Qed.

Lemma split_comma_nonempty s : split_comma s ≠ [].
Proof.
  destruct s as [|c s]; simpl; [discriminate|].
  destruct (is_comma c); [discriminate|].
  destruct (split_comma s); discriminate.
Qed.

Lemma comma_not_space c : is_comma c = true → isspace c = false.
Proof.
  unfold is_comma. intros H. apply Ascii.eqb_eq in H. subst. reflexivity.
Qed.

(** The tokens of the regular expression are those of [split(",")] with
    the whitespace at their left removed. *)
Lemma re_split_aux_spec skip s :
  re_split_aux skip s =
    match split_comma s with
    | t :: ts => (if skip then lstrip t else t) :: map lstrip ts
    | [] => []
    end.
Proof.
  revert skip. induction s as [|c s IH]; intros skip.
  - simpl. destruct skip; reflexivity.
  - pose proof (split_comma_nonempty s) as Hne.
    simpl. destruct (is_comma c) eqn:Hc.
    + rewrite IH. destruct (split_comma s) as [|t ts]; [congruence|].
      simpl. destruct skip; reflexivity.
    + destruct skip, (isspace c) eqn:Hs; simpl; rewrite IH;
        destruct (split_comma s) as [|t ts]; try congruence;
        simpl; rewrite ?Hs; reflexivity.
Qed.

Lemma re_split_strip s :
  map strip (re_split s) = map strip (split_comma s).
Proof.
  unfold re_split. rewrite re_split_aux_spec.
  destruct (split_comma s) as [|t ts]; [reflexivity|]. simpl. f_equal.
  rewrite map_map. apply map_ext. intros a. apply strip_lstrip.
Qed.

(** ** [sorted(set(...))] *)

Lemma insert_sorted_In x y l : In y (insert_sorted x l) ↔ y = x ∨ In y l.
Proof.
  induction l as [|z l IH]; simpl; [intuition|].
  destruct (String_as_OT.compare_spec x z) as [->|Hlt|Hgt]; simpl.
  - intuition.
  - intuition.
  - rewrite IH. intuition.
Qed.

Lemma sorted_set_In y l : In y (sorted_set l) ↔ In y l.
Proof.
  induction l as [|x l IH]; simpl; [reflexivity|].
  rewrite insert_sorted_In, IH. intuition.
Qed.

Lemma insert_sorted_sorted x l :
  StronglySorted String_as_OT.lt l →
  StronglySorted String_as_OT.lt (insert_sorted x l).
Proof.
  induction 1 as [|z l Hl IH Hz]; simpl.
  - constructor; constructor.
  - destruct (String_as_OT.compare_spec x z) as [->|Hlt|Hgt].
    + constructor; assumption.
    + constructor; [constructor; assumption|].
      constructor; [exact Hlt|].
      eapply Forall_impl; [exact Hz|]. intros a Ha.
      etransitivity; eassumption.
    + constructor; [exact IH|].
      apply List.Forall_forall. intros a Ha. apply insert_sorted_In in Ha as [->|Ha].
      * exact Hgt.
      * rewrite List.Forall_forall in Hz. apply Hz, Ha.
Qed.

Lemma sorted_set_sorted l : StronglySorted String_as_OT.lt (sorted_set l).
Proof.
  induction l as [|x l IH]; simpl; [constructor|].
  apply insert_sorted_sorted, IH.
Qed.

(** ** [genres] *)

Lemma genres_tokens df :
  map strip (concat (map (λ r, re_split (Genre r)) df)) = genre_tokens df.
Proof.
  unfold genre_tokens. induction df as [|r df IH]; [reflexivity|].
  simpl. rewrite map_app, IH, re_split_strip. reflexivity.
Qed.

Lemma genres_sorted self : StronglySorted String_as_OT.lt (genres self).
Proof.
  unfold genres. destruct (original_df self) as [[|r df]|];
    try constructor. apply sorted_set_sorted.
Qed.

Lemma genres_In self g :
  In g (genres self) ↔
  g ≠ "" ∧ ∃ df r, original_df self = Some df ∧ In r df ∧
                   In g (map strip (split_comma (Genre r))).
Proof.
  unfold genres.
  destruct (original_df self) as [[|r0 df0]|].
  - simpl. split; [tauto|]. intros (_ & df & r & [= <-] & [] & _).
  - set (df := r0 :: df0).
    rewrite sorted_set_In, filter_In, genres_tokens.
    unfold genre_tokens. rewrite in_concat. split.
    + intros [(l & Hl & Hg) Ht]. apply in_map_iff in Hl as (r & <- & Hr).
      split; [intros ->; discriminate Ht|]. eauto.
    + intros (Hne & df' & r & [= <-] & Hr & Hg). split.
      * exists (map strip (split_comma (Genre r))). split; [|exact Hg].
        apply in_map_iff. eauto.
      * destruct g; [congruence|reflexivity].
  - simpl. split; [tauto|]. intros (_ & df & r & [=] & _).
Qed.

(** X17.  [genres] returns the genre names in strictly increasing order,
    so without duplicates; they are exactly the non-empty tokens of the
    [Genre] cells, a cell being cut at its commas and each piece stripped
    of the whitespace around it.  Without data the list is empty. *)
Theorem genres_sorted_distinct_tokens self :
  StronglySorted String_as_OT.lt (genres self) ∧
  List.NoDup (genres self) ∧
  (∀ g, In g (genres self) ↔
        g ≠ "" ∧ ∃ df r, original_df self = Some df ∧ In r df ∧
                         In g (map strip (split_comma (Genre r)))).
Proof.
  pose proof (genres_sorted self) as Hs.
  split; [exact Hs|]. split; [|intros g; apply genres_In].
  induction Hs as [|g l _ IH Hg]; constructor; [|exact IH].
  intros Hin. rewrite List.Forall_forall in Hg.
  apply (irreflexivity String_as_OT.lt g). apply Hg, Hin.
Qed.

(** ** [apply_filters] *)

Lemma filter_and {A} (p q : A → bool) l :
  List.filter (λ x, p x && q x) l = List.filter q (List.filter p l).
Proof.
  induction l as [|a l IH]; [reflexivity|]. simpl.
  destruct (p a); simpl; [destruct (q a); rewrite IH; reflexivity|exact IH].
Qed.

Lemma filter_all {A} (l : list A) : List.filter (λ _, true) l = l.
Proof. induction l as [|a l IH]; [reflexivity|]. simpl. rewrite IH. reflexivity. Qed.

Lemma row_passes_filter rc q gs lo hi mr df :
  List.filter (row_passes rc q gs lo hi mr) df =
  List.filter (rating_from mr)
    (List.filter (year_to hi)
       (List.filter (year_from lo)
          (List.filter (genre_ok gs) (List.filter (title_found rc q) df)))).
Proof. unfold row_passes. rewrite !filter_and. reflexivity. Qed.

(** The result of a call that succeeds. *)
Lemma apply_filters_done rc self q gs lo hi mr df' self' :
  apply_filters rc self q gs lo hi mr = (Done df', self') →
  ∃ df, original_df self = Some df ∧
        df' = List.filter (row_passes rc q gs lo hi mr) df ∧
        self' = {| original_df := Some df; filtered_df := Some df' |}.
Proof.
  unfold apply_filters. intros H.
  destruct (original_df self) as [df|] eqn:Ho; [|discriminate].
  exists df. split; [reflexivity|]. rewrite row_passes_filter.
  unfold title_found, genre_ok, year_from, year_to, rating_from.
  destruct (truthy q) eqn:Hq;
    [destruct (rc (lower q)) as [found|] eqn:Hrc; [|discriminate]|];
    destruct gs as [[|g gs]|];
    repeat match goal with
           | H : context [match ?l with [] => true | _ :: _ => false end] |- _ =>
               destruct l eqn:?
           end;
    destruct lo, hi, mr; simpl in H; try discriminate;
    injection H as <- <-; rewrite ?filter_all; simpl; rewrite ?filter_all;
    split; reflexivity.
Qed.

Lemma fle_bool_iff a b : fle_bool a b = true ↔ fle a b.
Proof.
  destruct a, b; simpl; try apply Qle_bool_iff; split; auto; discriminate.
Qed.

Lemma fle_trans a b c : fle a b → fle b c → fle a c.
Proof.
  destruct a, b, c; simpl; try tauto. apply Qle_trans.
Qed.

Lemma row_passes_bounds rc q gs lo hi mr r :
  row_passes rc q gs lo hi mr r = true →
  (∀ y, lo = Some y → fle (of_int y) (Released_Year r)) ∧
  (∀ y, hi = Some y → fle (Released_Year r) (of_int y)) ∧
  (∀ m, mr = Some m → fle (Finite m) (IMDB_Rating r)) ∧
  (∀ g gs', gs = Some (g :: gs') →
            ∃ g0, In g0 (g :: gs') ∧
                  In g0 (map strip (split_comma (Genre r)))).
Proof.
  intros Hp. unfold row_passes in Hp. rewrite !andb_true_iff in Hp.
  destruct Hp as ((((_ & Hg) & Hlo) & Hhi) & Hmr).
  repeat split.
  - intros y ->. apply fle_bool_iff. exact Hlo.
  - intros y ->. apply fle_bool_iff. exact Hhi.
  - intros m ->. apply fle_bool_iff. exact Hmr.
  - intros g gs' ->. cbn [genre_ok] in Hg. unfold genre_selected in Hg.
    apply existsb_exists in Hg as (g0 & Hg0 & Hex).
    apply existsb_exists in Hex as (t & Ht & Heq).
    apply String.eqb_eq in Heq. subst t. eauto.
Qed.

Lemma apply_filters_failed_state rc self q gs lo hi mr e self' :
  apply_filters rc self q gs lo hi mr = (Failed e, self') → self' = self.
Proof.
  unfold apply_filters. intros H.
  repeat case_match; simplify_eq; reflexivity.
Qed.

(** X18.  A call of [apply_filters] that succeeds returns the rows of the
    original frame that pass every filter that is set, in their order,
    and stores them as the filtered frame; the original frame is kept.
    Each row returned lies within the year bounds and above the rating
    bound given, and, when genres are selected, has one of them among the
    stripped tokens of its [Genre] cell. *)
Theorem apply_filters_keeps_matching_rows rc self q gs lo hi mr df' self' :
  apply_filters rc self q gs lo hi mr = (Done df', self') →
  ∃ df,
    original_df self = Some df ∧ original_df self' = Some df ∧
    filtered_df self' = Some df' ∧
    df' = List.filter (row_passes rc q gs lo hi mr) df ∧
    ∀ r, In r df' →
         In r df ∧
         (∀ y, lo = Some y → fle (of_int y) (Released_Year r)) ∧
         (∀ y, hi = Some y → fle (Released_Year r) (of_int y)) ∧
         (∀ m, mr = Some m → fle (Finite m) (IMDB_Rating r)) ∧
         (∀ g gs', gs = Some (g :: gs') →
                   ∃ g0, In g0 (g :: gs') ∧
                         In g0 (map strip (split_comma (Genre r)))).
Proof.
  intros H. apply apply_filters_done in H as (df & Ho & Hdf & ->).
  exists df. do 3 (split; [reflexivity || assumption|]). split; [exact Hdf|].
  intros r Hr. rewrite Hdf in Hr. apply filter_In in Hr as [Hin Hp].
  split; [exact Hin|]. exact (row_passes_bounds _ _ _ _ _ _ _ Hp).
Qed.

Lemma apply_filters_keeps_matching_rows_witness :
  ∃ df', (apply_filters demo_re demo_data "O" (Some ["Adventure"])
            (Some 2000) (Some 2020) (Some (8 # 1)%Q)).1 = Done df' ∧
         map Series_Title df' = ["Inception"; "Coco"].
Proof.
  destruct (apply_filters demo_re demo_data "O" (Some ["Adventure"])
              (Some 2000) (Some 2020) (Some (8 # 1)%Q))
    as [[df'|e] self'] eqn:H; [|vm_compute in H; discriminate H].
  destruct (apply_filters_keeps_matching_rows _ _ _ _ _ _ _ _ _ H)
    as (df & Ho & _ & _ & Hdf & _).
  exists df'. split; [reflexivity|].
  injection Ho as <-. rewrite Hdf. vm_compute. reflexivity.
Defined.

(** X19.  A call of [apply_filters] that fails leaves the manager as it
    was.  It fails with [RuntimeError] exactly when no data are loaded,
    with the error of [re] only for a non-empty title that does not
    compile, and with [KeyError] only when a genre is selected, a year or
    rating bound is given and the title filter left no row. *)
Theorem apply_filters_failure_changes_nothing rc self q gs lo hi mr e self' :
  apply_filters rc self q gs lo hi mr = (Failed e, self') →
  self' = self ∧
  (e = RuntimeError ↔ original_df self = None) ∧
  (e = re_error → q ≠ "" ∧ rc (lower q) = None) ∧
  (e = ColumnKeyError →
   (∃ g gs', gs = Some (g :: gs')) ∧
   (is_Some lo ∨ is_Some hi ∨ is_Some mr) ∧
   ∃ df, original_df self = Some df ∧ List.filter (title_found rc q) df = []).
Proof.
  unfold apply_filters, title_found. intros H.
  destruct (original_df self) as [df|] eqn:Ho.
  - destruct (truthy q) eqn:Hq.
    + destruct (rc (lower q)) as [found|] eqn:Hrc.
      * destruct gs as [[|g gs]|];
          try (destruct (List.filter _ df) eqn:Hf);
          destruct lo, hi, mr; simpl in H; try discriminate;
          injection H as <- <-;
          (split; [reflexivity|]); (split; [split; discriminate|]);
          (split; [discriminate|]); intros _;
          (split; [eauto|]); (split; [eauto|]); exists df; auto.
      * injection H as <- <-. split; [reflexivity|].
        split; [split; discriminate|]. split; [|discriminate].
        intros _. split; [|reflexivity]. intros ->. discriminate Hq.
    + destruct gs as [[|g gs]|]; try (destruct df as [|r df]);
        destruct lo, hi, mr; simpl in H; try discriminate;
        injection H as <- <-;
        (split; [reflexivity|]); (split; [split; discriminate|]);
        (split; [discriminate|]); intros _;
        (split; [eauto|]); (split; [eauto|]); exists []; rewrite filter_all; auto.
  - injection H as <- <-. split; [reflexivity|].
    split; [tauto|]. split; discriminate.
Qed.

Lemma apply_filters_failure_changes_nothing_witness :
  (apply_filters demo_re demo_data "(" None None None None).2 = demo_data ∧
  demo_re (lower "(") = None.
Proof.
  destruct (apply_filters demo_re demo_data "(" None None None None)
    as [[df'|e] self'] eqn:H; [vm_compute in H; discriminate H|].
  assert (He : e = re_error) by (vm_compute in H; congruence).
  destruct (apply_filters_failure_changes_nothing _ _ _ _ _ _ _ _ _ H)
    as (Hself & _ & Hre & _).
  split; [exact Hself|]. apply Hre, He.
Defined.


Lemma apply_filters_outcome rc self q gs lo hi mr :
  apply_filters rc self q gs lo hi mr =
    match (apply_filters rc self q gs lo hi mr).1 with
    | Done df' =>
        (Done df', {| original_df := original_df self; filtered_df := Some df' |})
    | Failed e => (Failed e, self)
    end.
Proof.
  destruct (apply_filters rc self q gs lo hi mr) as [[df'|e] self'] eqn:H.
  - apply apply_filters_done in H as (df & Ho & _ & ->). simpl. rewrite Ho. reflexivity.
  - apply apply_filters_failed_state in H as ->. reflexivity.
Qed.

Lemma apply_filters_reads_original rc s1 s2 q gs lo hi mr :
  original_df s1 = original_df s2 →
  (apply_filters rc s1 q gs lo hi mr).1 = (apply_filters rc s2 q gs lo hi mr).1.
Proof.
  intros H. unfold apply_filters. rewrite H.
  destruct (original_df s2) as [df|]; [|reflexivity].
  destruct (truthy q); [destruct (rc (lower q)); [|reflexivity]|];
    destruct gs as [[|g gs]|];
    try (destruct (List.filter _ df));
    try (destruct df);
    destruct lo, hi, mr; reflexivity.
Qed.

(** X20.  Filters do not stack: every call starts from the original frame,
    so its result does not depend on the calls made before, and a call
    without any filter returns the whole original frame again. *)
Theorem apply_filters_does_not_stack rc self q1 gs1 lo1 hi1 mr1 q2 gs2 lo2 hi2 mr2 :
  let self1 := (apply_filters rc self q1 gs1 lo1 hi1 mr1).2 in
  original_df self1 = original_df self ∧
  (apply_filters rc self1 q2 gs2 lo2 hi2 mr2).1
    = (apply_filters rc self q2 gs2 lo2 hi2 mr2).1 ∧
  (∀ df, original_df self = Some df →
         apply_filters rc self1 "" None None None None
         = (Done df, {| original_df := Some df; filtered_df := Some df |})).
Proof.
  intros self1.
  assert (Ho : original_df self1 = original_df self).
  { unfold self1. rewrite apply_filters_outcome.
    destruct (apply_filters rc self q1 gs1 lo1 hi1 mr1).1; reflexivity. }
  split; [exact Ho|]. split; [apply apply_filters_reads_original, Ho|].
  intros df Hdf. unfold apply_filters. rewrite Ho, Hdf. reflexivity.
Qed.

Lemma apply_filters_does_not_stack_witness :
  apply_filters demo_re
    (apply_filters demo_re demo_data "godfather" None None None None).2
    "" None None None None
  = (Done demo_rows,
     {| original_df := Some demo_rows; filtered_df := Some demo_rows |}).
Proof.
  apply (apply_filters_does_not_stack demo_re demo_data
           "godfather" None None None None "" None None None None).
  reflexivity.
Defined.


(** X21.  With a lower year bound above the upper one, a call that
    succeeds returns no row. *)
Theorem apply_filters_empty_year_range rc self q gs lo hi mr df' self' :
  hi < lo →
  apply_filters rc self q gs (Some lo) (Some hi) mr = (Done df', self') →
  df' = [].
Proof.
  intros Hlt H. apply apply_filters_done in H as (df & _ & Hdf & _).
  destruct df' as [|r df']; [reflexivity|]. exfalso.
  assert (Hr : In r (List.filter (row_passes rc q gs (Some lo) (Some hi) mr) df))
    by (rewrite <- Hdf; left; reflexivity).
  apply filter_In in Hr as [_ Hp].
  destruct (row_passes_bounds _ _ _ _ _ _ _ Hp) as (Hlo & Hhi & _).
  specialize (Hlo lo eq_refl). specialize (Hhi hi eq_refl).
  pose proof (fle_trans _ _ _ Hlo Hhi) as Hle. simpl in Hle.
  rewrite <- Zle_Qle in Hle. lia.
Qed.

Lemma apply_filters_empty_year_range_witness :
  (apply_filters demo_re demo_data "" None (Some 2015) (Some 2000) None).1
  = Done [].
Proof.
  destruct (apply_filters demo_re demo_data "" None (Some 2015) (Some 2000) None)
    as [[df'|e] self'] eqn:H; [|vm_compute in H; discriminate H].
  rewrite (apply_filters_empty_year_range demo_re demo_data "" None 2015 2000
             None df' self' ltac:(lia) H).
  reflexivity.
Defined.


(** X22.  Every genre that [genres] offers selects something: filtering
    the loaded data by that genre alone succeeds and returns at least one
    row, and every row returned has the genre among its tokens. *)
Theorem every_offered_genre_selects_a_row rc self g :
  In g (genres self) →
  ∃ df' self',
    apply_filters rc self "" (Some [g]) None None None = (Done df', self') ∧
    df' ≠ [] ∧
    ∀ r, In r df' → In g (map strip (split_comma (Genre r))).
Proof.
  intros Hg. apply genres_In in Hg as (_ & df & r & Ho & Hr & Ht).
  assert (Hsel : ∀ r0, genre_selected [g] (Genre r0) = true ↔
                       In g (map strip (split_comma (Genre r0)))).
  { intros r0. unfold genre_selected. cbn [existsb]. rewrite orb_false_r.
    rewrite existsb_exists. split.
    - intros (t & Ht0 & Heq). apply String.eqb_eq in Heq. subst. exact Ht0.
    - intros Hin. exists g. split; [exact Hin|apply String.eqb_refl]. }
  exists (List.filter (λ r0, genre_selected [g] (Genre r0)) df).
  eexists. split; [|split].
  - unfold apply_filters. rewrite Ho. cbn [truthy].
    destruct df as [|r0 df0]; [destruct Hr|]. reflexivity.
  - intros Hnil.
    assert (Hin : In r (List.filter (λ r0, genre_selected [g] (Genre r0)) df))
      by (apply filter_In; split; [exact Hr|apply Hsel, Ht]).
    rewrite Hnil in Hin. destruct Hin.
  - intros r1 Hr1. apply filter_In in Hr1 as [_ Hr1]. apply Hsel, Hr1.
Qed.

Lemma every_offered_genre_selects_a_row_witness :
  ∃ df' self',
    apply_filters demo_re demo_data "" (Some ["Adventure"]) None None None
    = (Done df', self') ∧
    df' ≠ [] ∧
    ∀ r, In r df' → In "Adventure" (map strip (split_comma (Genre r))).
Proof.
  apply (every_offered_genre_selects_a_row demo_re demo_data "Adventure").
  vm_compute. tauto.
Defined.


(** ** [years_range] *)

Lemma fle_refl a : fle a a.
Proof. destruct a; simpl; auto. apply Qle_refl. Qed.

Lemma fle_total a b : fle_bool a b = false → fle b a.
Proof.
  destruct a, b; simpl; try discriminate; auto.
  intros H. apply Qlt_le_weak, Qnot_le_lt. intros Hle.
  apply Qle_bool_iff in Hle. congruence.
Qed.

Lemma col_min_spec xs : ∀ x,
  In (col_min x xs) (x :: xs) ∧ ∀ y, In y (x :: xs) → fle (col_min x xs) y.
Proof.
  unfold col_min. induction xs as [|a xs IH]; intros x; simpl.
  - split; [auto|]. intros y [<-|[]]. apply fle_refl.
  - destruct (fle_bool x a) eqn:Hxa.
    + destruct (IH x) as [Hin Hle]. split.
      * destruct Hin as [Hin|Hin]; [left; exact Hin|right; right; exact Hin].
      * intros y [<-|[<-|Hy]].
        -- apply Hle. left. reflexivity.
        -- apply fle_trans with x; [apply Hle; left; reflexivity|].
           apply fle_bool_iff, Hxa.
        -- apply Hle. right. exact Hy.
    + destruct (IH a) as [Hin Hle]. split.
      * right. exact Hin.
      * pose proof (fle_total _ _ Hxa) as Hax.
        intros y [<-|[<-|Hy]].
        -- apply fle_trans with a; [apply Hle; left; reflexivity|exact Hax].
        -- apply Hle. left. reflexivity.
        -- apply Hle. right. exact Hy.
Qed.

Lemma col_max_spec xs : ∀ x,
  In (col_max x xs) (x :: xs) ∧ ∀ y, In y (x :: xs) → fle y (col_max x xs).
Proof.
  unfold col_max. induction xs as [|a xs IH]; intros x; simpl.
  - split; [auto|]. intros y [<-|[]]. apply fle_refl.
  - destruct (fle_bool a x) eqn:Hax.
    + destruct (IH x) as [Hin Hle]. split.
      * destruct Hin as [Hin|Hin]; [left; exact Hin|right; right; exact Hin].
      * intros y [<-|[<-|Hy]].
        -- apply Hle. left. reflexivity.
        -- apply fle_trans with x; [apply fle_bool_iff, Hax|].
           apply Hle. left. reflexivity.
        -- apply Hle. right. exact Hy.
    + destruct (IH a) as [Hin Hle]. split.
      * right. exact Hin.
      * pose proof (fle_total _ _ Hax) as Hxa.
        intros y [<-|[<-|Hy]].
        -- apply fle_trans with a; [exact Hxa|apply Hle; left; reflexivity].
        -- apply Hle. left. reflexivity.
        -- apply Hle. right. exact Hy.
Qed.

Lemma py_int_floor_ceiling x :
  py_int x = if 0 <=? Qnum x then Qfloor x else Qceiling x.
Proof.
  unfold py_int, Qceiling, Qfloor. destruct x as [n d]. simpl.
  destruct (0 <=? n) eqn:Hn.
  - apply Z.quot_div_nonneg; lia.
  - rewrite <- (Z.opp_involutive n) at 1. rewrite Z.quot_opp_l by lia.
    f_equal. apply Z.quot_div_nonneg; lia.
Qed.

Lemma py_int_mono x y : (x <= y)%Q → py_int x ≤ py_int y.
Proof.
  intros Hxy. rewrite !py_int_floor_ceiling.
  destruct (0 <=? Qnum x) eqn:Hx, (0 <=? Qnum y) eqn:Hy.
  - apply Qfloor_resp_le, Hxy.
  - exfalso. unfold Qle in Hxy. nia.
  - transitivity 0.
    + unfold Qceiling, Qfloor. destruct x as [n d]. simpl in *.
      assert (0 ≤ (- n) / Z.pos d) by (apply Z.div_pos; lia). lia.
    + unfold Qfloor. destruct y as [n d]. simpl in *. apply Z.div_pos; lia.
  - apply Qceiling_resp_le, Hxy.
Qed.

Lemma py_int_integer x z : (x == inject_Z z)%Q → py_int x = z.
Proof.
  intros H.
  assert (H1 : py_int x ≤ py_int (inject_Z z)) by (apply py_int_mono; rewrite H; apply Qle_refl).
  assert (H2 : py_int (inject_Z z) ≤ py_int x) by (apply py_int_mono; rewrite H; apply Qle_refl).
  assert (H3 : py_int (inject_Z z) = z) by (unfold py_int; simpl; apply Z.quot_1_r).
  lia.
Qed.

(** The minimum and the maximum of the year column, with the rows they
    come from, and what [years_range] makes of them. *)
Lemma years_range_rows self r0 df0 :
  original_df self = Some (r0 :: df0) →
  ∃ rmin rmax,
    In rmin (r0 :: df0) ∧ In rmax (r0 :: df0) ∧
    (∀ r, In r (r0 :: df0) →
          fle (Released_Year rmin) (Released_Year r) ∧
          fle (Released_Year r) (Released_Year rmax)) ∧
    years_range self =
      (lo ← int_of_float (Released_Year rmin);
       hi ← int_of_float (Released_Year rmax);
       Ret (lo, hi)).
Proof.
  intros Ho.
  destruct (col_min_spec (map Released_Year df0) (Released_Year r0)) as [Hmin Hle].
  destruct (col_max_spec (map Released_Year df0) (Released_Year r0)) as [Hmax Hge].
  change (Released_Year r0 :: map Released_Year df0)
    with (map Released_Year (r0 :: df0)) in *.
  apply in_map_iff in Hmin as (rmin & Hmin & Hinmin).
  apply in_map_iff in Hmax as (rmax & Hmax & Hinmax).
  exists rmin, rmax. do 2 (split; [assumption|]). split.
  - intros r Hr. rewrite Hmin, Hmax. split; [apply Hle|apply Hge]; apply in_map, Hr.
  - unfold years_range. rewrite Ho, Hmin, Hmax. reflexivity.
Qed.

(** X23.  [years_range] is (1900, 2025) without data or without rows.  It
    raises, and then [OverflowError], exactly when the year of some row is
    infinite ([load_csv] keeps such a row).  When it returns for data with
    rows, every year is finite and, cut to an integer, lies between the
    two numbers returned. *)
Theorem years_range_brackets_every_row self :
  (match original_df self with
   | None | Some [] => years_range self = Ret (1900, 2025)
   | Some (_ :: _) => True
   end) ∧
  (∀ e, years_range self = Raise e →
        e = OverflowError ∧
        ∃ df r, original_df self = Some df ∧ In r df ∧
                (Released_Year r = PosInf ∨ Released_Year r = NegInf)) ∧
  (∀ df r, original_df self = Some df → In r df →
           Released_Year r = PosInf ∨ Released_Year r = NegInf →
           years_range self = Raise OverflowError) ∧
  (∀ df r lo hi, original_df self = Some df → In r df →
                 years_range self = Ret (lo, hi) →
                 ∃ q, Released_Year r = Finite q ∧ lo ≤ py_int q ≤ hi).
Proof.
  split; [unfold years_range; destruct (original_df self) as [[|r df]|]; auto|].
  split; [|split].
  - intros e He. destruct (original_df self) as [[|r0 df0]|] eqn:Ho;
      try (unfold years_range in He; rewrite Ho in He; discriminate He).
    destruct (years_range_rows self r0 df0 Ho)
      as (rmin & rmax & Hmin & Hmax & _ & Hyr).
    rewrite Hyr in He. unfold_res.
    destruct (Released_Year rmin) as [qm| |] eqn:Hm; simpl in He;
      try (injection He as <-; split; [reflexivity|];
           exists (r0 :: df0), rmin; auto).
    destruct (Released_Year rmax) as [qM| |] eqn:HM; simpl in He;
      try discriminate He;
      injection He as <-; (split; [reflexivity|]);
      exists (r0 :: df0), rmax; auto.
  - intros df r Ho Hr Hinf. destruct df as [|r0 df0]; [destruct Hr|].
    destruct (years_range_rows self r0 df0 Ho)
      as (rmin & rmax & _ & _ & Hb & Hyr).
    destruct (Hb r Hr) as [Hlo Hhi]. rewrite Hyr. unfold_res.
    destruct Hinf as [Hinf|Hinf]; rewrite Hinf in Hlo, Hhi.
    + destruct (Released_Year rmax); simpl in Hhi; try contradiction.
      destruct (Released_Year rmin); reflexivity.
    + destruct (Released_Year rmin); simpl in Hlo; try contradiction.
      reflexivity.
  - intros df r lo hi Ho Hr Hret. destruct df as [|r0 df0]; [destruct Hr|].
    destruct (years_range_rows self r0 df0 Ho)
      as (rmin & rmax & _ & _ & Hb & Hyr).
    destruct (Hb r Hr) as [Hlo Hhi]. rewrite Hyr in Hret. unfold_res.
    destruct (Released_Year rmin) as [qm| |]; simpl in Hret; try discriminate Hret.
    destruct (Released_Year rmax) as [qM| |]; simpl in Hret; try discriminate Hret.
    injection Hret as <- <-.
    destruct (Released_Year r) as [q| |]; simpl in Hlo, Hhi; try contradiction.
    exists q. split; [reflexivity|]. split; apply py_int_mono; assumption.
Qed.

Lemma years_range_brackets_every_row_witness :
  years_range no_data = Ret (1900, 2025) ∧
  years_range endless_data = Raise OverflowError ∧
  (∀ r, In r demo_rows →
        ∃ q, Released_Year r = Finite q ∧ 1972 ≤ py_int q ≤ 2017).
Proof.
  destruct (years_range_brackets_every_row no_data) as [H0 _].
  destruct (years_range_brackets_every_row endless_data) as (_ & _ & H1 & _).
  destruct (years_range_brackets_every_row demo_data) as (_ & _ & _ & H2).
  split; [exact H0|]. split.
  - apply (H1 endless_rows
             {| Poster_Link := ""; Series_Title := "Forever";
                Released_Year := PosInf; Genre := "Drama";
                IMDB_Rating := Finite (70 # 10) |});
      [reflexivity | vm_compute; tauto | left; reflexivity].
  - intros r Hr. apply (H2 demo_rows r 1972 2017 eq_refl Hr). reflexivity.
Defined.

Lemma filter_all_pass {A} (p : A → bool) l :
  (∀ a, In a l → p a = true) → List.filter p l = l.
Proof.
  induction l as [|a l IH]; intros H; [reflexivity|]. simpl.
  rewrite (H a (or_introl eq_refl)), IH; [reflexivity|].
  intros b Hb. apply H. right. exact Hb.
Qed.

(** X24.  When the years of the data are whole numbers, [years_range]
    returns, and filtering by the range it returns, and by nothing else,
    keeps every row. *)
Theorem full_year_range_keeps_whole_years rc self df :
  original_df self = Some df →
  (∀ r, In r df → ∃ y q, Released_Year r = Finite q ∧ (q == inject_Z y)%Q) →
  ∃ lo hi,
    years_range self = Ret (lo, hi) ∧
    apply_filters rc self "" None (Some lo) (Some hi) None
    = (Done df, {| original_df := Some df; filtered_df := Some df |}).
Proof.
  intros Ho Hint. destruct df as [|r0 df0].
  - exists 1900, 2025. unfold years_range, apply_filters. rewrite Ho.
    split; reflexivity.
  - destruct (years_range_rows self r0 df0 Ho)
      as (rmin & rmax & Hmin & Hmax & Hb & Hyr).
    destruct (Hint rmin Hmin) as (ym & qm & Hqm & Hym).
    destruct (Hint rmax Hmax) as (yM & qM & HqM & HyM).
    exists ym, yM. split.
    + rewrite Hyr, Hqm, HqM. unfold_res. simpl.
      rewrite (py_int_integer _ _ Hym), (py_int_integer _ _ HyM). reflexivity.
    + assert (Hlo : ∀ r, In r (r0 :: df0) →
                fle_bool (of_int ym) (Released_Year r) = true).
      { intros r Hr. apply fle_bool_iff. destruct (Hb r Hr) as [Hlo _].
        rewrite Hqm in Hlo. destruct (Released_Year r); simpl in *; auto.
        rewrite <- Hym. exact Hlo. }
      assert (Hhi : ∀ r, In r (r0 :: df0) →
                fle_bool (Released_Year r) (of_int yM) = true).
      { intros r Hr. apply fle_bool_iff. destruct (Hb r Hr) as [_ Hhi].
        rewrite HqM in Hhi. destruct (Released_Year r); simpl in *; auto.
        rewrite <- HyM. exact Hhi. }
      unfold apply_filters. rewrite Ho. cbn [truthy].
      rewrite (filter_all_pass _ _ Hlo), (filter_all_pass _ _ Hhi). reflexivity.
Qed.

Lemma full_year_range_keeps_whole_years_witness :
  ∃ lo hi,
    years_range demo_data = Ret (lo, hi) ∧
    apply_filters demo_re demo_data "" None (Some lo) (Some hi) None
    = (Done demo_rows,
       {| original_df := Some demo_rows; filtered_df := Some demo_rows |}).
Proof.
  apply (full_year_range_keeps_whole_years demo_re demo_data demo_rows);
    [reflexivity|].
  intros r [<-|[<-|[<-|[]]]]; eexists _, _; split; reflexivity.
Defined.
